(** * Entity classification (core/computed/entity-classification.js)

    A shallow embedding of [EntityClassification] and of the computed-artifact
    wrapper it is registered with.  JavaScript object identity is made
    explicit: an entity is handled through an [EntityRef], and two entities
    are "the very same value" exactly when their references are equal. *)

From Stdlib Require Import ZArith.
From stdpp Require Import gmap strings list fin_maps.

Open Scope string_scope.

(** ** Results of JavaScript evaluation: a value, or a thrown exception *)

Inductive completion (A : Type) : Type :=
| Normal (a : A)
| Throw (err : string).
Arguments Normal {A} a.
Arguments Throw {A} err.

(** ** Data model *)

(** [LH.Artifacts.Entity].  [homepage] and [isUnrecognized] are optional
    properties: [None] is a property that the object literal does not set. *)
Record Entity := {
  name : string;
  company : string;
  category : string;
  homepage : option string;
  categories : list string;
  domains : list string;
  averageExecutionTime : Z;
  totalExecutionTime : Z;
  totalOccurrences : Z;
  isUnrecognized : option bool;
}.

(** Identity of an entity object.  [Known i] is the i-th object of the
    third-party-web dataset (it exists before the call and every lookup hands
    out that same object); [Made a] is the a-th object literal evaluated
    during the call. *)
Inductive EntityRef :=
| Known (id : nat)
| Made (addr : nat).

#[global] Instance EntityRef_eq_dec : EqDecision EntityRef.
Proof. solve_decision. Defined.

#[global] Instance EntityRef_countable : Countable EntityRef.
Proof.
  refine (inj_countable'
            (fun r => match r with Known i => inl i | Made a => inr a end)
            (fun s => match s with inl i => Known i | inr a => Made a end) _).
  by intros [].
Defined.

(** The parts of a parsed [URL] object that the code reads. *)
Record URL := {
  protocol : string;
  host : string;
}.

Module Protocol.
(** [Runtime.executionContextCreated] carries [params.context]; the fields
    are only read behind the test on [method]. *)
Record ExecutionContextDescription := {
  origin : string;
  name : string;
}.
Record Params := { context : ExecutionContextDescription }.
Record Event := {
  method : string;
  params : Params;
}.
End Protocol.

Abbreviation DevtoolsLog := (list Protocol.Event).

Record NetworkRecord := { url : string }.

(** [LH.Artifacts['URL']]: [mainDocumentUrl] is optional. *)
Record URLArtifact := {
  mainDocumentUrl : option string;
  finalDisplayedUrl : string;
}.

Record Data := {
  data_URL : URLArtifact;
  devtoolsLog : DevtoolsLog;
}.

(** [LH.Artifacts.EntityClassification] without the closure [isFirstParty],
    which is the function [isFirstParty] below applied to this record. *)
Record Classification := {
  entityByUrl : gmap string EntityRef;
  urlsByEntity : gmap EntityRef (gset string);
  firstParty : option EntityRef;
}.

(** ** What the module imports

    The collaborators of entity-classification.js that are not part of it:
    the platform's [URL] constructor, [Util], [thirdPartyWeb] and the
    [NetworkRecords] computed artifact. *)
Class Imports := {
  (** [new URL(s)]; [None] when the constructor throws a TypeError. *)
  URL_new : string -> option URL;
  (** [Util.getRootDomain(url)], a string that may be empty. *)
  Util_getRootDomain : string -> string;
  (** [Util.getChromeExtensionOrigin(url)]. *)
  Util_getChromeExtensionOrigin : string -> string;
  (** [thirdPartyWeb.getEntity(url)]: the index of the dataset object that
      is returned, [None] for [undefined]. *)
  thirdPartyWeb_getEntity : string -> option nat;
  (** The contents of the dataset objects. *)
  thirdPartyWeb_entities : nat -> Entity;
  (** [await NetworkRecords.request(devtoolsLog, context)]; [Throw] when the
      promise rejects. *)
  NetworkRecords_request : DevtoolsLog -> completion (list NetworkRecord);
}.

(** ** The objects of one call and the monad that threads them *)

(** [objects] are the entity literals evaluated so far, by address;
    [entityCache] is the one [Map] that [compute_] creates and hands to both
    helpers. *)
Record Mem := {
  objects : list Entity;
  entityCache : gmap string EntityRef;
}.

Definition M (A : Type) : Type := Mem -> completion (A * Mem).

Definition ret {A} (a : A) : M A := fun m => Normal (a, m).

Definition bind {A B} (c : M A) (k : A -> M B) : M B :=
  fun m => match c m with
           | Normal (a, m') => k a m'
           | Throw e => Throw e
           end.

Definition throw {A} (e : string) : M A := fun _ => Throw e.

Declare Scope js_scope.
Delimit Scope js_scope with js.
Notation "'let*' x ':=' c 'in' k" := (bind c (fun x => k))
  (at level 10, x name, c at level 100, k at level 200) : js_scope.
Notation "c ';;;' k" := (bind c (fun _ => k))
  (at level 100, k at level 200, right associativity) : js_scope.

(** [entityCache.has(k)], [entityCache.get(k)], [entityCache.set(k, r)]. *)
Definition cache_has (k : string) : M bool :=
  fun m => Normal (bool_decide (is_Some (entityCache m !! k)), m).

Definition cache_get (k : string) : M (option EntityRef) :=
  fun m => Normal (entityCache m !! k, m).

Definition cache_set (k : string) (r : EntityRef) : M unit :=
  fun m => Normal (tt, {| objects := objects m;
                          entityCache := <[k := r]> (entityCache m) |}).

(** Evaluating an object literal: a new object, distinct from all others. *)
Definition new_object (e : Entity) : M EntityRef :=
  fun m => Normal (Made (length (objects m)),
                   {| objects := objects m ++ [e];
                      entityCache := entityCache m |}).

(** Reading the fields of an entity. *)
Definition deref `{Imports} (m : Mem) (r : EntityRef) : option Entity :=
  match r with
  | Known i => Some (thirdPartyWeb_entities i)
  | Made a => objects m !! a
  end.

(** The expression [new URL(s)], which throws on a string it cannot parse. *)
Definition new_URL `{Imports} (s : string) : M URL :=
  match URL_new s with
  | Some u => ret u
  | None => throw "TypeError: Invalid URL"
  end.

(** JavaScript truthiness of a string. *)
Definition truthy (s : string) : bool := negb (String.eqb s "").

Section EntityClassification.
Context `{Imports}.
Local Open Scope js_scope.

(** Modelled from the spec: [UrlUtils.isValid] (core/lib/url-utils.js is not
    among the sources), "the URL is a structurally valid URL", one that can
    be parsed: the [URL] constructor accepts it. *)
Definition UrlUtils_isValid (url : string) : bool :=
  bool_decide (is_Some (URL_new url)).

(** Modelled from the spec: [Util.createOrReturnURL] (shared/util.js is not
    among the sources) on a string: the parsed URL, or the constructor's
    exception. *)
Definition Util_createOrReturnURL (url : string) : M URL := new_URL url.

Definition makeUpAnEntity (url : string) : M (option EntityRef) :=
  if negb (UrlUtils_isValid url) then ret None else
  let* parsedUrl := Util_createOrReturnURL url in
  let isChromeExtension := String.eqb (protocol parsedUrl) "chrome-extension:" in
  if negb isChromeExtension && negb (String.prefix "http" (protocol parsedUrl))
  then ret None else
  let rootDomain :=
    if isChromeExtension
    then Util_getChromeExtensionOrigin url else Util_getRootDomain url in
  if negb (truthy rootDomain) then ret None else
  let* has := cache_has rootDomain in
  if has then cache_get rootDomain else
  let* unrecognizedEntity := new_object {|
    name := rootDomain;
    company := rootDomain;
    category := "";
    homepage := None;
    categories := [];
    domains := if isChromeExtension then [] else [rootDomain];
    averageExecutionTime := 0;
    totalExecutionTime := 0;
    totalOccurrences := 0;
    isUnrecognized := Some true;
  |} in
  cache_set rootDomain unrecognizedEntity ;;;
  ret (Some unrecognizedEntity).

(** One iteration of the loop of [preloadChromeExtensionsToCache_]. *)
Definition preloadEntry (entry : Protocol.Event) : M unit :=
  if negb (String.eqb (Protocol.method entry) "Runtime.executionContextCreated")
  then ret tt else
  let origin := Protocol.origin (Protocol.context (Protocol.params entry)) in
  if negb (String.prefix "chrome-extension:" origin) then ret tt else
  let* has := cache_has origin in
  if has then ret tt else
  let name_ := Protocol.name (Protocol.context (Protocol.params entry)) in
  let* parsed := new_URL origin in
  let host_ := host parsed in
  let* e := new_object {|
    name := name_;
    company := name_;
    category := "Chrome Extension";
    homepage := Some ("https://chromewebstore.google.com/detail/" ++ host_);
    categories := [];
    domains := [];
    averageExecutionTime := 0;
    totalExecutionTime := 0;
    totalOccurrences := 0;
    isUnrecognized := None;
  |} in
  cache_set origin e.

Fixpoint preloadChromeExtensionsToCache_ (log : DevtoolsLog) : M unit :=
  match log with
  | [] => ret tt
  | entry :: rest =>
      preloadEntry entry ;;; preloadChromeExtensionsToCache_ rest
  end.

(** The two local maps of [compute_]. *)
Definition Maps : Type := gmap string EntityRef * gmap EntityRef (gset string).

(** [a || b] on entities: [b] is evaluated only when [a] is [undefined];
    a dataset hit is the dataset's own object. *)
Definition or_else (a : option nat) (b : M (option EntityRef))
  : M (option EntityRef) :=
  match a with
  | Some i => ret (Some (Known i))
  | None => b
  end.

(** The body of [for (const record of networkRecords)]. *)
Definition classifyRecord (maps : Maps) (record : NetworkRecord) : M Maps :=
  let '(entityByUrl, urlsByEntity) := maps in
  let url := url record in
  if bool_decide (is_Some (entityByUrl !! url)) then ret maps else
  let* entity := or_else (thirdPartyWeb_getEntity url) (makeUpAnEntity url) in
  match entity with
  | None => ret maps
  | Some entity =>
      let entityURLs := default ∅ (urlsByEntity !! entity) in
      let entityURLs := {[url]} ∪ entityURLs in
      let urlsByEntity := <[entity := entityURLs]> urlsByEntity in
      let entityByUrl := <[url := entity]> entityByUrl in
      ret (entityByUrl, urlsByEntity)
  end.

Fixpoint classifyRecords (maps : Maps) (records : list NetworkRecord) : M Maps :=
  match records with
  | [] => ret maps
  | record :: rest =>
      let* maps' := classifyRecord maps record in
      classifyRecords maps' rest
  end.

(** [data.URL.mainDocumentUrl || data.URL.finalDisplayedUrl]. *)
Definition firstPartyUrlOf (u : URLArtifact) : string :=
  match mainDocumentUrl u with
  | Some main => if truthy main then main else finalDisplayedUrl u
  | None => finalDisplayedUrl u
  end.

(** The part of [compute_] after the [await]. *)
Definition classify (data : Data) (networkRecords : list NetworkRecord)
  : M Classification :=
  preloadChromeExtensionsToCache_ (devtoolsLog data) ;;;
  let* maps := classifyRecords (∅, ∅) networkRecords in
  let firstPartyUrl := firstPartyUrlOf (data_URL data) in
  let* firstParty := or_else (thirdPartyWeb_getEntity firstPartyUrl)
                             (makeUpAnEntity firstPartyUrl) in
  ret {| entityByUrl := fst maps;
         urlsByEntity := snd maps;
         firstParty := firstParty |}.

(** [new Map()] for the cache, and no object made yet. *)
Definition emptyMem : Mem := {| objects := []; entityCache := ∅ |}.

Definition compute_ (data : Data) : completion (Classification * Mem) :=
  match NetworkRecords_request (devtoolsLog data) with
  | Throw e => Throw e
  | Normal networkRecords => classify data networkRecords emptyMem
  end.

(** The closure [isFirstParty] of a result: [undefined === undefined]
    holds, an object equals only itself. *)
Definition isFirstParty (c : Classification) (url : string) : bool :=
  let entityUrl := entityByUrl c !! url in
  bool_decide (entityUrl = firstParty c).

End EntityClassification.

(** ** Notions the statements are phrased with *)

Section Notions.
Context `{Imports}.

(** The canonical key of a URL, as [makeUpAnEntity] derives it before it
    consults the cache: the key, and whether it is an extension origin. *)
Definition canonicalKey (url : string) : option (string * bool) :=
  match URL_new url with
  | None => None
  | Some parsedUrl =>
      let isChromeExtension :=
        String.eqb (protocol parsedUrl) "chrome-extension:" in
      if negb isChromeExtension && negb (String.prefix "http" (protocol parsedUrl))
      then None
      else
        let rootDomain :=
          if isChromeExtension
          then Util_getChromeExtensionOrigin url else Util_getRootDomain url in
        if truthy rootDomain then Some (rootDomain, isChromeExtension) else None
  end.

(** The three ways in which a URL has no canonical key. *)
Definition malformed (url : string) : Prop := URL_new url = None.

Definition unsupportedScheme (url : string) : Prop :=
  exists parsedUrl, URL_new url = Some parsedUrl /\
    protocol parsedUrl <> "chrome-extension:" /\
    String.prefix "http" (protocol parsedUrl) = false.

Definition noRootDomain (url : string) : Prop :=
  exists parsedUrl, URL_new url = Some parsedUrl /\
    (if String.eqb (protocol parsedUrl) "chrome-extension:"
     then Util_getChromeExtensionOrigin url
     else Util_getRootDomain url) = "".

(** The placeholder that [makeUpAnEntity] writes for a key. *)
Definition placeholderEntity (key : string) (isChromeExtension : bool) : Entity :=
  {| name := key; company := key; category := ""; homepage := None;
     categories := [];
     domains := if isChromeExtension then [] else [key];
     averageExecutionTime := 0; totalExecutionTime := 0;
     totalOccurrences := 0; isUnrecognized := Some true |}.

(** The entity that [preloadChromeExtensionsToCache_] writes for an event. *)
Definition extensionEntity (name_ host_ : string) : Entity :=
  {| name := name_; company := name_; category := "Chrome Extension";
     homepage := Some ("https://chromewebstore.google.com/detail/" ++ host_);
     categories := []; domains := [];
     averageExecutionTime := 0; totalExecutionTime := 0;
     totalOccurrences := 0; isUnrecognized := None |}.

(** An event that the preload acts on, for the origin [o]. *)
Definition extensionEventFor (o : string) (entry : Protocol.Event) : Prop :=
  Protocol.method entry = "Runtime.executionContextCreated" /\
  Protocol.origin (Protocol.context (Protocol.params entry)) = o /\
  String.prefix "chrome-extension:" o = true.

(** What [thirdPartyWeb.getEntity(url) || makeUpAnEntity(cache, url)]
    evaluates to in a memory, and the memory it leaves. *)
Definition resolveIn (m : Mem) (url : string) : option EntityRef * Mem :=
  match thirdPartyWeb_getEntity url with
  | Some i => (Some (Known i), m)
  | None =>
      match canonicalKey url with
      | None => (None, m)
      | Some (key, isChromeExtension) =>
          match entityCache m !! key with
          | Some r => (Some r, m)
          | None =>
              let r := Made (length (objects m)) in
              (Some r,
               {| objects := objects m ++ [placeholderEntity key isChromeExtension];
                  entityCache := <[key := r]> (entityCache m) |})
          end
      end
  end.

(** A lookup that creates nothing: the entity that a URL stands for in a
    memory. *)
Definition lookupEntity (m : Mem) (url : string) : option EntityRef :=
  match thirdPartyWeb_getEntity url with
  | Some i => Some (Known i)
  | None =>
      match canonicalKey url with
      | Some (key, _) => entityCache m !! key
      | None => None
      end
  end.

(** A URL that the dataset does not match and that has the key [key]. *)
Definition unmatchedKey (url key : string) (isChromeExtension : bool) : Prop :=
  thirdPartyWeb_getEntity url = None /\
  canonicalKey url = Some (key, isChromeExtension).

(** One iteration of the loop over the records, and the loop, as functions
    on the two maps and the memory. *)
Definition classifyRecordIn (maps : gmap string EntityRef * gmap EntityRef (gset string))
    (m : Mem) (record : NetworkRecord)
  : (gmap string EntityRef * gmap EntityRef (gset string)) * Mem :=
  match fst maps !! url record with
  | Some _ => (maps, m)
  | None =>
      match resolveIn m (url record) with
      | (None, m') => (maps, m')
      | (Some entity, m') =>
          ((<[url record := entity]> (fst maps),
            <[entity := {[url record]} ∪ default ∅ (snd maps !! entity)]> (snd maps)),
           m')
      end
  end.

Fixpoint classifyRecordsIn (maps : gmap string EntityRef * gmap EntityRef (gset string))
    (m : Mem) (records : list NetworkRecord)
  : (gmap string EntityRef * gmap EntityRef (gset string)) * Mem :=
  match records with
  | [] => (maps, m)
  | record :: rest =>
      let '(maps', m') := classifyRecordIn maps m record in
      classifyRecordsIn maps' m' rest
  end.

(** The four ways in which the lookup of a URL ends. *)
Inductive resolution (m : Mem) (u : string) : option EntityRef -> Mem -> Prop :=
| res_known i :
    thirdPartyWeb_getEntity u = Some i -> resolution m u (Some (Known i)) m
| res_none :
    thirdPartyWeb_getEntity u = None -> canonicalKey u = None ->
    resolution m u None m
| res_cached k b r :
    unmatchedKey u k b -> entityCache m !! k = Some r ->
    resolution m u (Some r) m
| res_made k b :
    unmatchedKey u k b -> entityCache m !! k = None ->
    resolution m u (Some (Made (length (objects m))))
      {| objects := objects m ++ [placeholderEntity k b];
         entityCache := <[k := Made (length (objects m))]> (entityCache m) |}.

(** A run of [compute_]: the records that the provider answered with, the
    memory after the preload, the memory after the loop, the result and
    the final memory. *)
Definition computes (data : Data) (records : list NetworkRecord)
    (m0 m1 : Mem) (c : Classification) (m : Mem) : Prop :=
  NetworkRecords_request (devtoolsLog data) = Normal records /\
  preloadChromeExtensionsToCache_ (devtoolsLog data) emptyMem = Normal (tt, m0) /\
  classifyRecords (∅, ∅) records m0
    = Normal ((entityByUrl c, urlsByEntity c), m1) /\
  or_else (thirdPartyWeb_getEntity (firstPartyUrlOf (data_URL data)))
          (makeUpAnEntity (firstPartyUrlOf (data_URL data))) m1
    = Normal (firstParty c, m).

(** A memory that a later one extends: cache entries stay, objects are only
    added. *)
Definition extends (m m' : Mem) : Prop :=
  (forall k r, entityCache m !! k = Some r -> entityCache m' !! k = Some r) /\
  (exists l : list Entity, objects m' = (objects m ++ l)%list).

(** What holds of the memory once the URLs [seen] went through the lookup,
    starting from the memory [m0] that the preload left. *)
Record MemInv (m0 : Mem) (seen : gset string) (m : Mem) : Prop := {
  inv_extends : extends m0 m;
  inv_cache_wf : forall k r, entityCache m !! k = Some r ->
    exists a, r = Made a /\ a < length (objects m);
  inv_seen_cached : forall u k b, u ∈ seen -> unmatchedKey u k b ->
    is_Some (entityCache m !! k);
  inv_cache_prov : forall k r, entityCache m !! k = Some r ->
    entityCache m0 !! k = Some r \/
    (entityCache m0 !! k = None /\
     exists u b a, u ∈ seen /\ unmatchedKey u k b /\ r = Made a /\
       length (objects m0) <= a /\
       objects m !! a = Some (placeholderEntity k b));
  inv_object_prov : forall a ent, length (objects m0) <= a ->
    objects m !! a = Some ent ->
    exists u k b, u ∈ seen /\ unmatchedKey u k b /\
      ent = placeholderEntity k b /\ entityCache m !! k = Some (Made a);
}.

(** What holds of the two maps once the record URLs [seen] were processed. *)
Record MapsInv (seen : gset string)
    (maps : gmap string EntityRef * gmap EntityRef (gset string)) (m : Mem)
  : Prop := {
  inv_entityByUrl : forall u,
    fst maps !! u = if bool_decide (u ∈ seen) then lookupEntity m u else None;
  inv_inverse : forall u e,
    fst maps !! u = Some e <-> exists s, snd maps !! e = Some s /\ u ∈ s;
  inv_nonempty : forall e s, snd maps !! e = Some s -> exists u, u ∈ s;
}.

(** What holds of the memory that the preload of a log leaves. *)
Record PreInv (log : DevtoolsLog) (m : Mem) : Prop := {
  pre_cache_wf : forall k r, entityCache m !! k = Some r ->
    exists a, r = Made a /\ a < length (objects m);
  pre_objects : forall a ent, objects m !! a = Some ent ->
    exists n h, ent = extensionEntity n h;
  pre_keys : forall k r, entityCache m !! k = Some r ->
    exists entry, entry ∈ log /\ extensionEventFor k entry;
}.

(** The entities that a result hands out. *)
Definition reachable (c : Classification) (r : EntityRef) : Prop :=
  (exists u, entityByUrl c !! u = Some r) \/
  is_Some (urlsByEntity c !! r) \/
  firstParty c = Some r.

End Notions.

(** ** The computed-artifact wrapper (computed-artifact.js)

    [makeComputedArtifact] is imported from a file that is not among the
    sources; what follows is the wrapper of section 4.1 of the specification,
    for one run on its single thread of control: a call of [request] runs to
    its end before anything else does, and what is "concurrent" is the order
    in which requests and completions are interleaved. *)
Module ComputedArtifact.
Section Wrapper.
Context {Inputs Fingerprint Result : Type} `{Countable Fingerprint}.
Variable fingerprint : Inputs -> Fingerprint.

Inductive Outcome :=
| Fulfilled (result : Result)
| Failed (err : string).

(** Modelled from the spec: the Dependency Cache, "a run-scoped store
    mapping (artifact kind, dependency fingerprint) to an
    in-flight-or-completed computation result".  A promise is named by
    its index in [promises], where [None] is still pending;
    [producerCalls] is the call counter of the producers. *)
Record Context := {
  computedCache : gmap (string * Fingerprint) nat;
  promises : list (option Outcome);
  producerCalls : list (string * Fingerprint);
}.

(** Modelled from the spec: the cache "created at run start". *)
Definition newContext : Context :=
  {| computedCache := ∅; promises := []; producerCalls := [] |}.

(** Modelled from the spec: [request(inputs, context)]; "first caller for
    a given key triggers the producer and stores a pending placeholder;
    subsequent concurrent callers for the same key [...] await the same
    pending placeholder". *)
Definition request (artifact : string) (inputs : Inputs) (ctx : Context)
  : nat * Context :=
  let key := (artifact, fingerprint inputs) in
  match computedCache ctx !! key with
  | Some computed => (computed, ctx)
  | None =>
      let artifactPromise := length (promises ctx) in
      (artifactPromise,
       {| computedCache := <[key := artifactPromise]> (computedCache ctx);
          promises := promises ctx ++ [None];
          producerCalls := key :: producerCalls ctx |})
  end.

(** Modelled from the spec: the producer completes, with a result or with
    a failure, and the pending placeholder is settled for good ("if the
    producer fails, the failure is cached and replayed"). *)
Definition settle (p : nat) (o : Outcome) (ctx : Context) : Context :=
  match promises ctx !! p with
  | Some None =>
      {| computedCache := computedCache ctx;
         promises := <[p := Some o]> (promises ctx);
         producerCalls := producerCalls ctx |}
  | _ => ctx
  end.

(** What a caller that awaits the promise [p] observes: nothing yet, or
    the outcome. *)
Definition observe (ctx : Context) (p : nat) : option Outcome :=
  match promises ctx !! p with
  | Some o => o
  | None => None
  end.

(** What happens during a run, in the order in which it happens. *)
Inductive Action :=
| Request (artifact : string) (inputs : Inputs)
| Settle (p : nat) (o : Outcome).

(** The run, and the promise that each request was answered with. *)
Fixpoint run (acts : list Action) (ctx : Context)
  : list (string * Fingerprint * nat) * Context :=
  match acts with
  | [] => ([], ctx)
  | Request artifact inputs :: rest =>
      let '(p, ctx') := request artifact inputs ctx in
      let '(answers, ctx'') := run rest ctx' in
      ((artifact, fingerprint inputs, p) :: answers, ctx'')
  | Settle p o :: rest => run rest (settle p o ctx)
  end.

(** How often the producer of a key was invoked. *)
Definition invocations (key : string * Fingerprint) (ctx : Context) : nat :=
  length (filter (fun k => k = key) (producerCalls ctx)).

(** What holds of the cache during a run: every cached key has a promise and
    one call of its producer; every other key has none. *)
Definition cacheInv (ctx : Context) : Prop :=
  forall key,
    match computedCache ctx !! key with
    | Some p => p < length (promises ctx) /\ invocations key ctx = 1
    | None => invocations key ctx = 0
    end.

End Wrapper.
End ComputedArtifact.

(** ** A concrete set of imports, for examples

    A URL constructor that splits at the first colon and reads the host after
    a double slash, a table in place of the public-suffix list, and a dataset
    of three entities found by the host that follows "://". *)
Module Demo.

Definition after (n : nat) (s : string) : string :=
  String.substring n (String.length s - n) s.

Definition upTo (sep s : string) : string :=
  match String.index 0 sep s with
  | Some j => String.substring 0 j s
  | None => s
  end.

Definition URL_new (s : string) : option URL :=
  match String.index 0 ":" s with
  | Some (S i) =>
      let rest := after (S (S i)) s in
      Some {| protocol := String.substring 0 (S (S i)) s;
              host := if String.prefix "//" rest
                      then upTo "/" (after 2 rest) else "" |}
  | _ => None
  end.

Definition lookupTable {A} (table : list (string * A)) (k : string) : option A :=
  snd <$> List.find (fun kv => String.eqb (fst kv) k) table.

Definition rootDomains : list (string * string) :=
  [("sub.example.com", "example.com"); ("other.example.com", "example.com");
   ("example.com", "example.com"); ("cdn.other.com", "other.com");
   ("fonts.googleapis.com", "googleapis.com");
   ("ajax.googleapis.com", "googleapis.com");
   ("www.youtube.com", "youtube.com")].

Definition getRootDomain (u : string) : string :=
  match URL_new u with
  | Some p => default "" (lookupTable rootDomains (host p))
  | None => ""
  end.

Definition getChromeExtensionOrigin (u : string) : string :=
  match URL_new u with
  | Some p => protocol p ++ "//" ++ host p
  | None => ""
  end.

Definition knownDomains : list (string * nat) :=
  [("fonts.googleapis.com", 0); ("ajax.googleapis.com", 1);
   ("www.youtube.com", 2)].

Definition getEntity (u : string) : option nat :=
  match String.index 0 "://" u with
  | Some j => lookupTable knownDomains (upTo "/" (after (j + 3) u))
  | None => None
  end.

Definition knownEntity (entityName categoryName : string) (owned : list string)
  : Entity :=
  {| name := entityName; company := "Google"; category := categoryName;
     homepage := None; categories := [categoryName]; domains := owned;
     averageExecutionTime := 0; totalExecutionTime := 0;
     totalOccurrences := 0; isUnrecognized := None |}.

Definition entities (i : nat) : Entity :=
  match i with
  | 0 => knownEntity "Google Fonts" "cdn" ["fonts.googleapis.com"]
  | 1 => knownEntity "Google CDN" "cdn" ["ajax.googleapis.com"]
  | _ => knownEntity "YouTube" "video" ["*.youtube.com"]
  end.

(** The imports, with a provider that answers with the given URLs. *)
Definition imports (requested : list string) : Imports :=
  Build_Imports URL_new getRootDomain getChromeExtensionOrigin
                getEntity entities
                (fun _ => Normal (Build_NetworkRecord <$> requested)).

Definition contextCreated (o n : string) : Protocol.Event :=
  {| Protocol.method := "Runtime.executionContextCreated";
     Protocol.params := {| Protocol.context :=
       {| Protocol.origin := o; Protocol.name := n |} |} |}.

Definition page (main : option string) (final : string) (log : DevtoolsLog)
  : Data :=
  {| data_URL := {| mainDocumentUrl := main; finalDisplayedUrl := final |};
     devtoolsLog := log |}.

(** A page of example.com with one extension, and the requests it made. *)
Definition sampleUrls : list string :=
  ["https://sub.example.com/a"; "https://other.example.com/b";
   "https://cdn.other.com/lib.js"; "data:text/plain,hi";
   "chrome-extension://abc123/script.js"; "https://sub.example.com/a"].

Definition samplePage : Data :=
  page (Some "https://example.com/") "https://example.com/"
       [contextCreated "chrome-extension://abc123" "My Ext"].

(** Two requests to googleapis.com, which the dataset gives to two
    different entities. *)
Definition googleUrls : list string :=
  ["https://fonts.googleapis.com/css"; "https://ajax.googleapis.com/jquery.js"].

(** A page of cdn.other.com that requested nothing from its own domain. *)
Definition otherPage : Data := page None "https://cdn.other.com/" [].

(** A tab that displays nothing yet. *)
Definition blankPage : Data := page None "about:blank" [].

(** A request to an extension that the log has no event for. *)
Definition extensionUrls : list string := ["chrome-extension://abc123/script.js"].

(** An extension with two execution contexts, the second one with a name of
    its own. *)
Definition twoContexts : Data :=
  page (Some "https://example.com/") "https://example.com/"
       [contextCreated "chrome-extension://abc123" "My Ext";
        contextCreated "chrome-extension://abc123" "My Ext (frame)"].

(** A blob of a document of www.youtube.com. *)
Definition blobUrls : list string := ["blob:https://www.youtube.com/0a1b"].

(** The memory that the preload of a log leaves with these imports. *)
Definition preloaded (requested : list string) (log : DevtoolsLog) : Mem :=
  match @preloadChromeExtensionsToCache_ (imports requested) log emptyMem with
  | Normal (_, m) => m
  | Throw _ => emptyMem
  end.

(** The memory after one placeholder for example.com. *)
Definition oneExample : Mem :=
  {| objects := [placeholderEntity "example.com" false];
     entityCache := <["example.com" := Made 0]> ∅ |}.

(** What [compute_] returns with these imports. *)
Definition result (requested : list string) (data : Data) : Classification * Mem :=
  match @compute_ (imports requested) data with
  | Normal r => r
  | Throw _ =>
      ({| entityByUrl := ∅; urlsByEntity := ∅; firstParty := None |}, emptyMem)
  end.

End Demo.

(** ** The link-text audit (core/audits/seo/link-text.js) *)

Module LinkText.
Import Stdlib.Strings.Ascii.

(** What a call comes to: a value, an exception, or, for the model of the
    [while] loop only, a bound on the number of iterations that was too
    small. *)
Inductive outcome (A : Type) : Type :=
| Returns (a : A)
| Throws (err : string)
| OutOfFuel.
Arguments Returns {A} a.
Arguments Throws {A} err.
Arguments OutOfFuel {A}.

(** The properties of an [LH.Artifacts.AnchorElement] that the audit reads.
    A string is the sequence of the bytes of its UTF-8 form: the audit only
    compares whole strings and looks for ASCII characters in them, apart
    from [toLowerCase] and [trim], which are left to the platform. *)
Record AnchorElement := {
  href : string;
  rel : string;
  text : string;
  textLang : string;
}.

(** What the audit takes from outside link-text.js. *)
Class Platform := {
  (** [String.prototype.toLowerCase] and [String.prototype.trim]. *)
  toLowerCase : string -> string;
  trim : string -> string;
  (** [UrlUtils.equalWithExcludedFragments(url1, url2)]. *)
  UrlUtils_equalWithExcludedFragments : string -> string -> bool;
  (** Whether a plain object inherits a property of this name (such as
      "constructor"); no inherited property is a [Set]: it has no method
      [has]. *)
  inherited : string -> bool;
}.

Definition nonDescriptiveLinkTexts : list (string * list string) :=
  [
   ("en",
    ["click here"; "click this"; "go"; "here"; "information"; "learn more";
     "more"; "more info"; "more information"; "right here"; "read more";
     "see more"; "start"; "this"]);
   ("ja",
    ["ここをクリック"; "こちらをクリック"; "リンク"; "続きを読む"; "続く"; "全文表示"]);
   ("es",
    ["click aquí"; "click aqui"; "clicka aquí"; "clicka aqui"; "pincha aquí";
     "pincha aqui"; "aquí"; "aqui"; "más"; "mas"; "más información";
     "más informacion"; "mas información"; "mas informacion"; "este";
     "enlace"; "este enlace"; "empezar"]);
   ("pt",
    ["clique aqui"; "ir"; "mais informação"; "mais informações"; "mais";
     "veja mais"]);
   ("ko",
    ["여기"; "여기를 클릭"; "클릭"; "링크"; "자세히"; "자세히 보기"; "계속"; "이동"; "전체 보기"]);
   ("sv",
    ["här"; "klicka här"; "läs mer"; "mer"; "mer info"; "mer information"]);
   ("de",
    ["klicke hier"; "hier klicken"; "hier"; "mehr"; "siehe"; "dies"; "das"])
  ].

(** [nonDescriptiveLinkTexts[lang]] when it is one of the sets. *)
Definition ownProperty (lang : string) : option (list string) :=
  snd <$> List.find (fun kv => String.eqb (fst kv) lang) nonDescriptiveLinkTexts.

(** [s.lastIndexOf(c)] for a character [c]: the last index, or -1. *)
Fixpoint lastIndexOf (c : ascii) (s : string) : Z :=
  match s with
  | EmptyString => -1
  | String a rest =>
      let j := lastIndexOf c rest in
      if (0 <=? j)%Z then (j + 1)%Z
      else if Ascii.eqb a c then 0%Z else (-1)%Z
  end.

(** [s.substring(0, e)]: a negative end counts as 0. *)
Definition substring0 (e : Z) (s : string) : string :=
  String.substring 0 (Z.to_nat e) s.

(** [s.includes(needle)]. *)
Definition includes (needle s : string) : bool :=
  match String.index 0 needle s with
  | Some _ => true
  | None => false
  end.

Section Audit.
Context `{Platform}.

(** The [while (lang)] loop of the second filter, for at most [fuel] tests
    of [lang]. *)
Fixpoint walk (fuel : nat) (searchTerm lang : string) : outcome bool :=
  match fuel with
  | 0 => OutOfFuel
  | S fuel' =>
      if negb (truthy lang) then Returns false
      else
        match ownProperty lang with
        | Some set =>
            if bool_decide (searchTerm ∈ set) then Returns true
            else walk fuel' searchTerm (substring0 (lastIndexOf "-"%char lang) lang)
        | None =>
            if inherited lang
            then Throws "TypeError: nonDescriptiveLinkTexts[lang].has is not a function"
            else walk fuel' searchTerm (substring0 (lastIndexOf "-"%char lang) lang)
        end
  end.

(** The callback of the first filter. *)
Definition followed (link : AnchorElement) : bool :=
  truthy (href link) && negb (includes "nofollow" (rel link)).

(** The callback of the second filter. *)
Definition nonDescriptive (finalDisplayedUrl : string) (link : AnchorElement)
  : outcome bool :=
  let href_ := toLowerCase (href link) in
  if String.prefix "javascript:" href_
     || String.prefix "mailto:" href_
     || UrlUtils_equalWithExcludedFragments (href link) finalDisplayedUrl
  then Returns false
  else
    let searchTerm := toLowerCase (trim (text link)) in
    if truthy searchTerm
    then walk (S (String.length (textLang link))) searchTerm (textLang link)
    else Returns false.

(** [Array.prototype.filter] with a callback that may throw. *)
Fixpoint filterLinks (finalDisplayedUrl : string) (links : list AnchorElement)
  : outcome (list AnchorElement) :=
  match links with
  | [] => Returns []
  | link :: rest =>
      match nonDescriptive finalDisplayedUrl link with
      | Returns keep =>
          match filterLinks finalDisplayedUrl rest with
          | Returns kept => Returns (if keep then link :: kept else kept)
          | Throws e => Throws e
          | OutOfFuel => OutOfFuel
          end
      | Throws e => Throws e
      | OutOfFuel => OutOfFuel
      end
  end.

(** A row of the table of the audit. *)
Record TableItem := {
  item_href : string;
  item_text : string;
}.

(** The [LH.Audit.Product]: [items] are the rows handed to
    [Audit.makeTableDetails], [displayValue] the [itemCount] of the message,
    when there is one. *)
Record Product := {
  score : nat;
  items : list TableItem;
  displayValue : option nat;
}.

Definition audit (finalDisplayedUrl : string) (AnchorElements : list AnchorElement)
  : outcome Product :=
  match filterLinks finalDisplayedUrl (List.filter followed AnchorElements) with
  | Returns kept =>
      let failingLinks :=
        List.map (fun link => {| item_href := href link;
                                 item_text := trim (text link) |}) kept in
      Returns {| score := if Nat.eqb (length failingLinks) 0 then 1 else 0;
                 items := failingLinks;
                 displayValue := if negb (Nat.eqb (length failingLinks) 0)
                                 then Some (length failingLinks) else None |}
  | Throws e => Throws e
  | OutOfFuel => OutOfFuel
  end.

(** A language tag cut at one of its hyphens, or whole. *)
Definition dashPrefix (p lang : string) : Prop :=
  p = lang \/ exists rest, lang = p ++ String "-"%char rest.

(** The text is in the set of the language, or of the language cut at one of
    its hyphens. *)
Definition listed (searchTerm lang : string) : Prop :=
  exists p set, p <> "" /\ dashPrefix p lang /\
    ownProperty p = Some set /\ searchTerm ∈ set.

(** No tag that the loop looks up names an inherited property. *)
Definition plainLang (lang : string) : Prop :=
  forall p, p <> "" -> dashPrefix p lang -> inherited p = false.


End Audit.

(** A platform for examples: ASCII letters are lowered, blanks at both ends
    are trimmed, two URLs are equal up to what follows "#". *)
Definition lowerAscii (a : ascii) : ascii :=
  let n := Ascii.nat_of_ascii a in
  if Nat.leb 65 n && Nat.leb n 90 then Ascii.ascii_of_nat (n + 32) else a.

Fixpoint mapString (f : ascii -> ascii) (s : string) : string :=
  match s with
  | EmptyString => EmptyString
  | String a rest => String (f a) (mapString f rest)
  end.

Fixpoint trimStart (s : string) : string :=
  match s with
  | String " "%char rest => trimStart rest
  | _ => s
  end.

Fixpoint reverse (s acc : string) : string :=
  match s with
  | EmptyString => acc
  | String a rest => reverse rest (String a acc)
  end.

Definition demoTrim (s : string) : string :=
  reverse (trimStart (reverse (trimStart s) "")) "".

Definition beforeHash (s : string) : string :=
  match String.index 0 "#" s with
  | Some j => String.substring 0 j s
  | None => s
  end.

Definition demoPlatform : Platform :=
  Build_Platform (mapString lowerAscii) demoTrim
    (fun a b => String.eqb (beforeHash a) (beforeHash b))
    (fun s => bool_decide (s ∈ ["constructor"; "toString"; "valueOf";
                                "hasOwnProperty"; "__proto__"])).

Definition link (h t l : string) : AnchorElement :=
  {| href := h; rel := ""; text := t; textLang := l |}.

End LinkText.

(** ** Notions for the further properties *)

(** The cache and the objects of a call fit together: every cache entry
    points to an object of the call, no two keys share an object, and there
    are as many keys as objects. *)
Record CacheOK (m : Mem) : Prop := {
  ok_wf : forall k r, entityCache m !! k = Some r ->
    exists a, r = Made a /\ a < length (objects m);
  ok_inj : forall k1 k2 r,
    entityCache m !! k1 = Some r -> entityCache m !! k2 = Some r -> k1 = k2;
  ok_size : size (entityCache m) = length (objects m);
}.

(** The cache holds only keys that the [URL] constructor accepts. *)
Definition keysParse `{Imports} (m : Mem) : Prop :=
  forall k, is_Some (entityCache m !! k) -> is_Some (URL_new k).

(** The records without those whose URL an earlier record (or [seen])
    carried. *)
Fixpoint firstOccurrencesFrom (seen : list string) (records : list NetworkRecord)
  : list NetworkRecord :=
  match records with
  | [] => []
  | record :: rest =>
      if bool_decide (url record ∈ seen)
      then firstOccurrencesFrom seen rest
      else record :: firstOccurrencesFrom (url record :: seen) rest
  end.

(** * Properties *)

(** Discharging a hypothesis at a concrete input: by evaluation. *)
Ltac evaluated :=
  vm_compute;
  repeat match goal with |- _ /\ _ => split end;
  first [reflexivity | discriminate].

Section Lookup.
Context `{Imports}.

Lemma truthy_spec s : truthy s = true <-> s <> "".
Proof.
  unfold truthy. destruct (String.eqb_spec s ""); simpl; split; congruence.
Qed.

Lemma canonicalKey_nonempty url k b : canonicalKey url = Some (k, b) -> k <> "".
Proof.
  unfold canonicalKey. destruct (URL_new url) as [p|]; [|done].
  destruct (_ && _); [done|].
  destruct (truthy _) eqn:E; [|done].
  intros [= <- <-]. by apply truthy_spec.
Qed.

(** A URL has no canonical key exactly when it cannot be parsed, has a
    scheme that the code does not take, or has an empty root domain. *)
Lemma canonicalKey_None url :
  canonicalKey url = None <->
  malformed url \/ unsupportedScheme url \/ noRootDomain url.
Proof.
  unfold canonicalKey, malformed, unsupportedScheme, noRootDomain.
  destruct (URL_new url) as [p|] eqn:E; [|by split; [left|]].
  destruct (String.eqb_spec (protocol p) "chrome-extension:") as [Hp|Hp]; simpl.
  - destruct (truthy _) eqn:T; split; try done.
    + intros [?|[(q & [= <-] & Hq & _)|(q & [= <-] & Hq)]]; try done.
      apply String.eqb_eq in Hp. rewrite Hp in Hq.
      apply truthy_spec in T. done.
    + intros _. right; right. exists p. split; [done|].
      apply String.eqb_eq in Hp. rewrite Hp.
      destruct (String.eqb_spec (Util_getChromeExtensionOrigin url) ""); [done|].
      unfold truthy in T. destruct (String.eqb_spec (Util_getChromeExtensionOrigin url) ""); done.
  - destruct (String.prefix "http" (protocol p)) eqn:Hh; simpl.
    + apply String.eqb_neq in Hp. destruct (truthy _) eqn:T; split; try done.
      * intros [?|[(q & [= <-] & _ & Hq)|(q & [= <-] & Hq)]]; try congruence.
        rewrite Hp in Hq. apply truthy_spec in T. done.
      * intros _. right; right. exists p. split; [done|]. rewrite Hp.
        unfold truthy in T. by destruct (String.eqb_spec (Util_getRootDomain url) "").
    + split; [|done]. intros _. right; left. by exists p.
Qed.

(** [makeUpAnEntity] never throws: the test on [isValid] guards the parse. *)
Lemma makeUpAnEntity_eq url m :
  makeUpAnEntity url m =
  Normal (match canonicalKey url with
          | None => (None, m)
          | Some (key, isChromeExtension) =>
              match entityCache m !! key with
              | Some r => (Some r, m)
              | None =>
                  (Some (Made (length (objects m))),
                   {| objects := objects m ++ [placeholderEntity key isChromeExtension];
                      entityCache := <[key := Made (length (objects m))]> (entityCache m) |})
              end
          end).
Proof.
  unfold makeUpAnEntity, canonicalKey, UrlUtils_isValid, Util_createOrReturnURL, new_URL.
  destruct (URL_new url) as [p|] eqn:E.
  - rewrite bool_decide_eq_true_2 by eauto. simpl.
    unfold bind at 1. unfold ret at 1.
    destruct (negb (String.eqb (protocol p) "chrome-extension:") &&
              negb (String.prefix "http" (protocol p))); [done|].
    destruct (truthy _) eqn:T; simpl; [|done].
    unfold bind, cache_has, cache_get, new_object, cache_set, ret. simpl.
    destruct (entityCache m !! _) as [r|] eqn:C.
    + rewrite bool_decide_eq_true_2 by eauto. by rewrite C.
    + rewrite bool_decide_eq_false_2 by (by intros [? ?]). done.
  - rewrite bool_decide_eq_false_2 by (by intros [? ?]). done.
Qed.

Lemma resolve_eq url m :
  or_else (thirdPartyWeb_getEntity url) (makeUpAnEntity url) m
  = Normal (resolveIn m url).
Proof.
  unfold or_else, resolveIn. destruct (thirdPartyWeb_getEntity url); [done|].
  rewrite makeUpAnEntity_eq.
  destruct (canonicalKey url) as [[k b]|]; [|done].
  by destruct (entityCache m !! k).
Qed.

Lemma classifyRecord_eq maps record m :
  classifyRecord maps record m = Normal (classifyRecordIn maps m record).
Proof.
  destruct maps as [ebu ube]. unfold classifyRecord, classifyRecordIn. simpl.
  destruct (ebu !! url record) as [e|] eqn:E.
  - by rewrite bool_decide_eq_true_2 by eauto.
  - rewrite bool_decide_eq_false_2 by (by intros [? ?]).
    unfold bind. rewrite resolve_eq.
    by destruct (resolveIn m (url record)) as [[e|] m'].
Qed.

Lemma classifyRecords_eq records : forall maps m,
  classifyRecords maps records m = Normal (classifyRecordsIn maps m records).
Proof.
  induction records as [|r rest IH]; intros maps m; simpl; [done|].
  unfold bind. rewrite classifyRecord_eq.
  destruct (classifyRecordIn maps m r) as [maps' m']. apply IH.
Qed.

End Lookup.

Section Invariants.
Context `{Imports}.

Lemma extends_refl m : extends m m.
Proof. split; [done|]. exists []. by rewrite app_nil_r. Qed.

Lemma extends_trans m1 m2 m3 : extends m1 m2 -> extends m2 m3 -> extends m1 m3.
Proof.
  intros [C1 [l1 O1]] [C2 [l2 O2]]. split; [by eauto|].
  exists (l1 ++ l2)%list. by rewrite O2, O1, app_assoc.
Qed.

Lemma extends_length m m' : extends m m' -> length (objects m) <= length (objects m').
Proof. intros [_ [l ->]]. rewrite length_app. lia. Qed.

Lemma extends_lookup m m' a ent :
  extends m m' -> objects m !! a = Some ent -> objects m' !! a = Some ent.
Proof. intros [_ [l ->]] E. by apply lookup_app_l_Some. Qed.

Lemma extends_cache_None m m' k :
  extends m m' -> entityCache m' !! k = None -> entityCache m !! k = None.
Proof.
  intros [C _] E. destruct (entityCache m !! k) as [r|] eqn:F; [|done].
  apply C in F. congruence.
Qed.

Lemma resolveIn_resolution m u :
  resolution m u (resolveIn m u).1 (resolveIn m u).2.
Proof.
  unfold resolveIn.
  destruct (thirdPartyWeb_getEntity u) as [i|] eqn:G; [by constructor|].
  destruct (canonicalKey u) as [[k b]|] eqn:K; [|by constructor].
  destruct (entityCache m !! k) as [r|] eqn:C; simpl.
  - by eapply res_cached.
  - by eapply res_made.
Qed.

Lemma resolution_extends m u eo m' : resolution m u eo m' -> extends m m'.
Proof.
  destruct 1; try apply extends_refl.
  split; simpl; [|by eexists].
  intros k' r' E. rewrite lookup_insert_ne; [done|congruence].
Qed.

Lemma resolution_lookup m u eo m' :
  resolution m u eo m' -> lookupEntity m' u = eo.
Proof.
  unfold lookupEntity.
  destruct 1 as [i G|G K|k b r [G K] C|k b [G K] C]; rewrite G; try done.
  - by rewrite K.
  - by rewrite K.
  - rewrite K. simpl. by rewrite lookup_insert_eq.
Qed.

Lemma MemInv_init m0 :
  (forall k r, entityCache m0 !! k = Some r ->
     exists a, r = Made a /\ a < length (objects m0)) ->
  MemInv m0 ∅ m0.
Proof.
  intros W. split; [apply extends_refl|done|set_solver|by left|].
  intros a ent L E. apply lookup_lt_Some in E. lia.
Qed.

Lemma MemInv_seen_mono m0 seen seen' m :
  seen ⊆ seen' -> (forall u k b, u ∈ seen' -> u ∉ seen -> unmatchedKey u k b ->
                     is_Some (entityCache m !! k)) ->
  MemInv m0 seen m -> MemInv m0 seen' m.
Proof.
  intros S N [E W C P O]. split; [done|done| | |].
  - intros u k b Hu Hk. destruct (decide (u ∈ seen)); eauto.
  - intros k r Hr. destruct (P k r Hr) as [?|[? (u & b & a & ? & ?)]]; [by left|].
    right. split; [done|]. exists u, b, a. split; [by apply S|done].
  - intros a ent L Ha. destruct (O a ent L Ha) as (u & k & b & ? & ?).
    exists u, k, b. split; [by apply S|done].
Qed.

Lemma new_seen (u u' : string) (seen : gset string) :
  u' ∈ {[u]} ∪ seen -> u' ∉ seen -> u' = u.
Proof. intros [->%elem_of_singleton|?]%elem_of_union; done. Qed.

Lemma MemInv_step m0 seen m u eo m' :
  resolution m u eo m' -> MemInv m0 seen m -> MemInv m0 ({[u]} ∪ seen) m'.
Proof.
  intros R I. destruct R as [i G|G K|k b r [G K] C|k b [G K] C].
  - apply (MemInv_seen_mono m0 seen); [apply union_subseteq_r| |done].
    intros u' k b Hu Hn [G' _]. rewrite (new_seen _ _ _ Hu Hn) in G'. congruence.
  - apply (MemInv_seen_mono m0 seen); [apply union_subseteq_r| |done].
    intros u' k b Hu Hn [_ K']. rewrite (new_seen _ _ _ Hu Hn) in K'. congruence.
  - apply (MemInv_seen_mono m0 seen); [apply union_subseteq_r| |done].
    intros u' k' b' Hu Hn [_ K']. rewrite (new_seen _ _ _ Hu Hn) in K'.
    assert (k' = k) as -> by congruence. eauto.
  - destruct I as [E W S P O].
    assert (extends m {| objects := objects m ++ [placeholderEntity k b];
                         entityCache := <[k := Made (length (objects m))]> (entityCache m) |})
      as E' by (eapply resolution_extends, (res_made m u k b); [by split|done]).
    split; simpl.
    + by eapply extends_trans.
    + intros k' r'. rewrite lookup_insert. case_decide.
      * intros [= <-]. eexists. split; [done|]. rewrite length_app. simpl. lia.
      * intros Hr. destruct (W k' r' Hr) as (a & -> & ?).
        exists a. split; [done|]. rewrite length_app. lia.
    + intros u' k' b' Hu Hk. rewrite lookup_insert. case_decide; [by eauto|].
      apply elem_of_union in Hu as [Hu|Hu]; [|by eauto].
      apply elem_of_singleton in Hu as ->. destruct Hk as [_ K']. congruence.
    + intros k' r'. rewrite lookup_insert. case_decide as Hk.
      * subst k'. intros [= <-]. right. split; [by eapply extends_cache_None|].
        exists u, b, (length (objects m)). split; [set_solver|].
        split; [by split|]. split; [done|]. split; [by apply extends_length|].
        rewrite lookup_app_r by lia. by rewrite Nat.sub_diag.
      * intros Hr. destruct (P k' r' Hr) as [?|[? (u' & b' & a & ? & ? & ? & ? & ?)]];
          [by left|right]. split; [done|].
        exists u', b', a. split; [set_solver|]. repeat (split; [done|]).
        by apply lookup_app_l_Some.
    + intros a ent L. destruct (decide (a < length (objects m))) as [Ha|Ha].
      * rewrite lookup_app_l by done. intros Hent.
        destruct (O a ent L Hent) as (u' & k' & b' & ? & ? & ? & Hc).
        exists u', k', b'. split; [set_solver|]. repeat (split; [done|]).
        rewrite lookup_insert_ne; [done|congruence].
      * intros Hent. assert (a = length (objects m)) as ->.
        { apply lookup_lt_Some in Hent. rewrite length_app in Hent. simpl in Hent. lia. }
        rewrite lookup_app_r in Hent by lia. rewrite Nat.sub_diag in Hent.
        injection Hent as <-. exists u, k, b. split; [set_solver|].
        split; [by split|]. split; [done|]. by rewrite lookup_insert_eq.
Qed.

Lemma lookupEntity_stable m0 seen m m' u :
  MemInv m0 seen m -> extends m m' -> u ∈ seen ->
  lookupEntity m' u = lookupEntity m u.
Proof.
  intros I [E _] Hu. unfold lookupEntity.
  destruct (thirdPartyWeb_getEntity u) eqn:G; [done|].
  destruct (canonicalKey u) as [[k b]|] eqn:K; [|done].
  destruct (inv_seen_cached _ _ _ I u k b Hu) as [r Hr]; [by split|].
  rewrite Hr. by apply E.
Qed.

End Invariants.

Section Loop.
Context `{Imports}.

Lemma seen_here (u : string) (seen : gset string) : u ∈ {[u]} ∪ seen.
Proof. apply elem_of_union. left. by apply elem_of_singleton. Qed.

Lemma seen_there (u u' : string) (seen : gset string) :
  u' ∈ seen -> u' ∈ {[u]} ∪ seen.
Proof. intros. apply elem_of_union. by right. Qed.

Lemma seen_other (u u' : string) (seen : gset string) :
  u' <> u -> u' ∉ seen -> u' ∉ {[u]} ∪ seen.
Proof. intros D S [->%elem_of_singleton|?]%elem_of_union; done. Qed.

Lemma MapsInv_init m : MapsInv ∅ (∅, ∅) m.
Proof.
  split; simpl.
  - intros u. by rewrite lookup_empty.
  - intros u e. rewrite lookup_empty. split; [done|].
    intros (s & Hs & _). by rewrite lookup_empty in Hs.
  - intros e s. by rewrite lookup_empty.
Qed.

(** A memory that grows keeps the maps' invariant. *)
Lemma MapsInv_extends m0 seen maps m m' :
  MemInv m0 seen m -> extends m m' -> MapsInv seen maps m -> MapsInv seen maps m'.
Proof.
  intros I E [A B C]. split; [|done|done].
  intros u. rewrite A. case_bool_decide; [|done].
  symmetry. by eapply lookupEntity_stable.
Qed.

(** One iteration keeps both invariants, whatever the record. *)
Lemma classifyRecordIn_inv m0 seen maps m record :
  MemInv m0 seen m -> MapsInv seen maps m ->
  MemInv m0 ({[url record]} ∪ seen) (classifyRecordIn maps m record).2 /\
  MapsInv ({[url record]} ∪ seen) (classifyRecordIn maps m record).1
          (classifyRecordIn maps m record).2.
Proof.
  intros I J. unfold classifyRecordIn. generalize (url record). intros u.
  destruct (maps.1 !! u) as [e|] eqn:E; simpl.
  - assert (u ∈ seen) as Hu.
    { pose proof (inv_entityByUrl _ _ _ J u) as A. rewrite E in A.
      by case_bool_decide. }
    assert ({[u]} ∪ seen = seen) as -> by (apply subseteq_union_1_L; set_solver).
    done.
  - pose proof (resolveIn_resolution m u) as R.
    pose proof (MemInv_step _ _ _ _ _ _ R I) as I'.
    pose proof (resolution_extends _ _ _ _ R) as X.
    pose proof (resolution_lookup _ _ _ _ R) as L.
    destruct (resolveIn m u) as [[e|] m']; simpl in *; (split; [done|]).
    + destruct J as [A B C]. split; simpl.
      * intros u'. rewrite lookup_insert. case_decide as D.
        -- subst u'. rewrite bool_decide_eq_true_2 by apply seen_here. done.
        -- rewrite A. destruct (decide (u' ∈ seen)) as [S|S].
           ++ rewrite !bool_decide_eq_true_2 by (done || by apply seen_there).
              symmetry. by eapply lookupEntity_stable.
           ++ rewrite !bool_decide_eq_false_2 by (done || by apply seen_other). done.
      * intros u' e'. rewrite lookup_insert. case_decide as D.
        -- subst u'. split.
           ++ intros [= <-]. eexists. rewrite lookup_insert_eq.
              split; [done|]. apply seen_here.
           ++ intros (s & Hs & Hu). rewrite lookup_insert in Hs.
              case_decide; [by subst|].
              assert (maps.1 !! u = Some e') as F by (apply B; eauto).
              congruence.
        -- rewrite B. destruct (decide (e' = e)) as [->|D'].
           ++ split.
              ** intros (s & Hs & Hu). exists ({[u]} ∪ s).
                 rewrite lookup_insert_eq, Hs. simpl.
                 split; [done|]. apply elem_of_union. by right.
              ** intros (s & Hs & Hu). rewrite lookup_insert_eq in Hs.
                 injection Hs as <-.
                 apply elem_of_union in Hu as [Hu|Hu].
                 { apply elem_of_singleton in Hu. done. }
                 destruct (maps.2 !! e) as [s0|]; simpl in Hu; [by eauto|].
                 by apply not_elem_of_empty in Hu.
           ++ split; intros (s & Hs & Hu); exists s.
              ** by rewrite lookup_insert_ne.
              ** by rewrite lookup_insert_ne in Hs.
      * intros e' s. rewrite lookup_insert. case_decide.
        -- intros [= <-]. exists u. apply seen_here.
        -- apply C.
    + assert (m' = m) as -> by (by inversion R).
      destruct J as [A B C]. split; [|done|done].
      intros u'. destruct (decide (u' = u)) as [->|D].
      * rewrite E, bool_decide_eq_true_2 by apply seen_here. by rewrite L.
      * rewrite A. destruct (decide (u' ∈ seen)) as [S|S].
        -- by rewrite !bool_decide_eq_true_2 by (done || by apply seen_there).
        -- by rewrite !bool_decide_eq_false_2 by (done || by apply seen_other).
Qed.

Lemma classifyRecordsIn_inv m0 records : forall seen maps m,
  MemInv m0 seen m -> MapsInv seen maps m ->
  MemInv m0 (list_to_set (url <$> records) ∪ seen) (classifyRecordsIn maps m records).2 /\
  MapsInv (list_to_set (url <$> records) ∪ seen) (classifyRecordsIn maps m records).1
          (classifyRecordsIn maps m records).2.
Proof.
  induction records as [|r rest IH]; intros seen maps m I J.
  - simpl. by rewrite union_empty_l_L.
  - cbn [classifyRecordsIn]. rewrite fmap_cons, list_to_set_cons.
    destruct (classifyRecordIn_inv _ _ _ _ r I J) as [I' J'].
    destruct (classifyRecordIn maps m r) as [maps' m']. cbn [fst snd] in *.
    assert ({[url r]} ∪ list_to_set (url <$> rest) ∪ seen
            = list_to_set (url <$> rest) ∪ ({[url r]} ∪ seen)) as ->.
    { rewrite (union_comm_L {[url r]}), <- union_assoc_L. done. }
    by apply IH.
Qed.

Lemma classifyRecordIn_extends maps m record :
  extends m (classifyRecordIn maps m record).2.
Proof.
  unfold classifyRecordIn. destruct (maps.1 !! url record); [apply extends_refl|].
  pose proof (resolution_extends _ _ _ _ (resolveIn_resolution m (url record))).
  by destruct (resolveIn m (url record)) as [[e|] m'].
Qed.

Lemma classifyRecordsIn_extends records : forall maps m,
  extends m (classifyRecordsIn maps m records).2.
Proof.
  induction records as [|r rest IH]; intros maps m; simpl; [apply extends_refl|].
  pose proof (classifyRecordIn_extends maps m r) as E.
  destruct (classifyRecordIn maps m r) as [maps' m'].
  eapply extends_trans; [exact E|apply IH].
Qed.

End Loop.

Section Preload.
Context `{Imports}.

Lemma preloadEntry_eq entry m :
  let o := Protocol.origin (Protocol.context (Protocol.params entry)) in
  preloadEntry entry m =
  if String.eqb (Protocol.method entry) "Runtime.executionContextCreated"
     && String.prefix "chrome-extension:" o
  then match entityCache m !! o with
       | Some _ => Normal (tt, m)
       | None =>
           match URL_new o with
           | Some p =>
               Normal (tt,
                 {| objects := objects m ++
                      [extensionEntity
                         (Protocol.name (Protocol.context (Protocol.params entry)))
                         (host p)];
                    entityCache := <[o := Made (length (objects m))]> (entityCache m) |})
           | None => Throw "TypeError: Invalid URL"
           end
       end
  else Normal (tt, m).
Proof.
  intros o. unfold preloadEntry. fold o.
  destruct (String.eqb (Protocol.method entry) _); simpl; [|done].
  destruct (String.prefix "chrome-extension:" o); simpl; [|done].
  unfold bind, cache_has, new_URL. simpl.
  destruct (entityCache m !! o) as [r|] eqn:C.
  - by rewrite bool_decide_eq_true_2 by eauto.
  - rewrite bool_decide_eq_false_2 by (by intros [? ?]).
    by destruct (URL_new o).
Qed.

Lemma extensionEventFor_dec entry :
  String.eqb (Protocol.method entry) "Runtime.executionContextCreated"
  && String.prefix "chrome-extension:"
       (Protocol.origin (Protocol.context (Protocol.params entry))) = true
  <-> extensionEventFor
        (Protocol.origin (Protocol.context (Protocol.params entry))) entry.
Proof.
  unfold extensionEventFor. rewrite andb_true_iff, String.eqb_eq. tauto.
Qed.

Lemma classic_event o entry : extensionEventFor o entry \/ ~ extensionEventFor o entry.
Proof.
  unfold extensionEventFor.
  destruct (decide (Protocol.method entry = "Runtime.executionContextCreated"));
    [|right; tauto].
  destruct (decide (Protocol.origin (Protocol.context (Protocol.params entry)) = o));
    [|right; tauto].
  destruct (String.prefix "chrome-extension:" o) eqn:P; [left; tauto|right].
  intros (_ & _ & ?). congruence.
Qed.

Lemma first_event o (log : DevtoolsLog) entry :
  entry ∈ log -> extensionEventFor o entry ->
  exists l1 entry' l2, log = (l1 ++ entry' :: l2)%list /\
    extensionEventFor o entry' /\
    forall e, e ∈ l1 -> ~ extensionEventFor o e.
Proof.
  intros In_ Ev. induction log as [|e0 rest IH]; [by apply elem_of_nil in In_|].
  destruct (classic_event o e0) as [Yes|No].
  - exists [], e0, rest. split; [done|]. split; [done|].
    intros e He. by apply elem_of_nil in He.
  - apply elem_of_cons in In_ as [->|In_]; [done|].
    destruct (IH In_) as (l1 & entry' & l2 & -> & Ev' & First).
    exists (e0 :: l1), entry', l2. split; [done|]. split; [done|].
    intros e [->|He]%elem_of_cons; [done|by apply First].
Qed.

Lemma preloadEntry_inv done entry m m' :
  PreInv done m -> preloadEntry entry m = Normal (tt, m') ->
  PreInv (done ++ [entry]) m' /\ extends m m'.
Proof.
  intros [W O K] E. rewrite preloadEntry_eq in E.
  assert (PreInv (done ++ [entry]) m) as Same.
  { split; [done|done|]. intros k r Hr. destruct (K k r Hr) as (e & ? & ?).
    exists e. split; [|done]. apply elem_of_app. by left. }
  destruct (_ && _) eqn:A.
  2:{ injection E as <-. split; [done|apply extends_refl]. }
  apply extensionEventFor_dec in A.
  set (o := Protocol.origin (Protocol.context (Protocol.params entry))) in *.
  destruct (entityCache m !! o) as [r|] eqn:C.
  { injection E as <-. split; [done|apply extends_refl]. }
  destruct (URL_new o) as [p|]; [|done]. injection E as <-. split.
  - split; simpl.
    + intros k r. rewrite lookup_insert. case_decide.
      * intros [= <-]. eexists. split; [done|]. rewrite length_app. simpl. lia.
      * intros Hr. destruct (W k r Hr) as (a & -> & ?).
        exists a. split; [done|]. rewrite length_app. lia.
    + intros a ent Ha. apply lookup_app_Some in Ha as [Ha|[_ Ha]]; [by eauto|].
      apply list_lookup_singleton_Some in Ha as [_ <-]. by eauto.
    + intros k r. rewrite lookup_insert. case_decide as D.
      * subst k. intros _. exists entry. split; [|done].
        apply elem_of_app. right. by apply list_elem_of_singleton.
      * intros Hr. destruct (K k r Hr) as (e & ? & ?).
        exists e. split; [|done]. apply elem_of_app. by left.
  - split; simpl; [|by eexists].
    intros k r Hr. rewrite lookup_insert_ne; [done|congruence].
Qed.

Lemma preload_inv log : forall done m m',
  PreInv done m -> preloadChromeExtensionsToCache_ log m = Normal (tt, m') ->
  PreInv (done ++ log) m' /\ extends m m'.
Proof.
  induction log as [|entry rest IH]; intros done m m' I E; simpl in E.
  - injection E as <-. rewrite app_nil_r. split; [done|apply extends_refl].
  - unfold bind in E.
    destruct (preloadEntry entry m) as [[[] m1]|] eqn:E1; [|done].
    destruct (preloadEntry_inv _ _ _ _ I E1) as [I1 X1].
    destruct (IH _ _ _ I1 E) as [I2 X2].
    rewrite <- app_assoc in I2. split; [done|by eapply extends_trans].
Qed.

Lemma PreInv_empty : PreInv [] emptyMem.
Proof. split; simpl; intros ? ?; by rewrite ?lookup_empty, ?lookup_nil. Qed.

Lemma preload_app l1 l2 m :
  preloadChromeExtensionsToCache_ (l1 ++ l2) m =
  match preloadChromeExtensionsToCache_ l1 m with
  | Normal (_, m1) => preloadChromeExtensionsToCache_ l2 m1
  | Throw e => Throw e
  end.
Proof.
  revert m. induction l1 as [|entry rest IH]; intros m; simpl; [done|].
  unfold bind. destruct (preloadEntry entry m) as [[[] m1]|]; [apply IH|done].
Qed.

(** The first event for an extension origin decides the preloaded entity. *)
Lemma preload_first l1 entry l2 o m0 :
  extensionEventFor o entry ->
  (forall e, e ∈ l1 -> ~ extensionEventFor o e) ->
  preloadChromeExtensionsToCache_ (l1 ++ entry :: l2) emptyMem = Normal (tt, m0) ->
  exists a p, URL_new o = Some p /\
    entityCache m0 !! o = Some (Made a) /\
    objects m0 !! a =
      Some (extensionEntity
              (Protocol.name (Protocol.context (Protocol.params entry))) (host p)).
Proof.
  intros Ev First E. rewrite preload_app in E.
  destruct (preloadChromeExtensionsToCache_ l1 emptyMem) as [[[] m1]|] eqn:E1; [|done].
  destruct (preload_inv _ _ _ _ PreInv_empty E1) as [I1 _]. simpl in I1.
  assert (entityCache m1 !! o = None) as C.
  { destruct (entityCache m1 !! o) as [r|] eqn:C; [|done].
    destruct (pre_keys _ _ I1 o r C) as (e & He & Hev). by destruct (First e He). }
  simpl in E. unfold bind in E.
  destruct (preloadEntry entry m1) as [[[] m2]|] eqn:E2; [|done].
  destruct (preload_inv _ _ _ _ (proj1 (preloadEntry_inv _ _ _ _ I1 E2)) E)
    as [_ X].
  rewrite preloadEntry_eq in E2. pose proof Ev as (Hm & Ho & Hp).
  rewrite Ho, Hm, Hp, C in E2. simpl in E2.
  destruct (URL_new o) as [p|]; [|done]. injection E2 as <-.
  exists (length (objects m1)), p. split; [done|]. split.
  - apply X. simpl. by rewrite lookup_insert_eq.
  - eapply extends_lookup; [exact X|]. simpl.
    rewrite lookup_app_r by lia. by rewrite Nat.sub_diag.
Qed.

End Preload.

Section Compute.
Context `{Imports}.

Lemma compute_computes data c m :
  compute_ data = Normal (c, m) <->
  exists records m0 m1, computes data records m0 m1 c m.
Proof.
  unfold compute_, computes, classify, bind. split.
  - destruct (NetworkRecords_request (devtoolsLog data)) as [records|]; [|done].
    destruct (preloadChromeExtensionsToCache_ _ emptyMem) as [[[] m0]|]; [|done].
    destruct (classifyRecords (∅, ∅) records m0) as [[[ebu ube] m1]|] eqn:L; [|done].
    simpl.
    destruct (or_else _ _ m1) as [[fp m2]|] eqn:F; [|done].
    unfold ret. intros [= <- <-]. exists records, m0, m1. by rewrite L, F.
  - intros (records & m0 & m1 & -> & -> & -> & ->). by destruct c.
Qed.

(** Everything the invariants say about a run. *)
Lemma computes_inv data records m0 m1 c m :
  computes data records m0 m1 c m ->
  let seen : gset string := list_to_set (url <$> records) in
  let fp := firstPartyUrlOf (data_URL data) in
  PreInv (devtoolsLog data) m0 /\
  MemInv m0 seen m1 /\
  resolution m1 fp (firstParty c) m /\
  MemInv m0 ({[fp]} ∪ seen) m /\
  MapsInv seen (entityByUrl c, urlsByEntity c) m1 /\
  MapsInv seen (entityByUrl c, urlsByEntity c) m.
Proof.
  intros (_ & P & L & F) seen fp.
  destruct (preload_inv _ _ _ _ PreInv_empty P) as [I0 _]. simpl in I0.
  rewrite classifyRecords_eq in L. injection L as L.
  destruct (classifyRecordsIn_inv m0 records ∅ (∅, ∅) m0
              (MemInv_init m0 (pre_cache_wf _ _ I0)) (MapsInv_init m0)) as [I1 J1].
  rewrite union_empty_r_L, L in I1, J1. simpl in I1, J1.
  rewrite resolve_eq in F. injection F as F.
  pose proof (resolveIn_resolution m1 fp) as R. fold fp in F. rewrite F in R.
  simpl in R. repeat (split; [done|]).
  split; [by eapply MemInv_step|]. split; [done|].
  eapply MapsInv_extends; [exact I1| |exact J1]. by eapply resolution_extends.
Qed.

(** The entry of a URL in the result: its lookup in the final memory if a
    record carried it, nothing otherwise. *)
Lemma entityByUrl_lookup data records m0 m1 c m u :
  computes data records m0 m1 c m ->
  entityByUrl c !! u =
    if bool_decide (u ∈ url <$> records) then lookupEntity m u else None.
Proof.
  intros C. destruct (computes_inv _ _ _ _ _ _ C) as (_ & _ & _ & _ & _ & J).
  pose proof (inv_entityByUrl _ _ _ J u) as A. simpl in A. rewrite A.
  rewrite (bool_decide_ext _ (u ∈ url <$> records)); [done|].
  apply elem_of_list_to_set.
Qed.

(** An entity that a result hands out is a dataset object or an object of
    the final memory. *)
Lemma reachable_wf data records m0 m1 c m r :
  computes data records m0 m1 c m -> reachable c r ->
  (exists i, r = Known i) \/ (exists a, r = Made a /\ a < length (objects m)).
Proof.
  intros C. destruct (computes_inv _ _ _ _ _ _ C) as (_ & _ & R & I & _ & J).
  assert (forall u, lookupEntity m u = Some r ->
            (exists i, r = Known i) \/ (exists a, r = Made a /\ a < length (objects m)))
    as Look.
  { intros u. unfold lookupEntity.
    destruct (thirdPartyWeb_getEntity u); [intros [= <-]; by eauto|].
    destruct (canonicalKey u) as [[k b]|]; [|done].
    intros Hr. right. by eapply inv_cache_wf. }
  assert (forall u, entityByUrl c !! u = Some r ->
            (exists i, r = Known i) \/ (exists a, r = Made a /\ a < length (objects m)))
    as Url.
  { intros u. pose proof (inv_entityByUrl _ _ _ J u) as A. simpl in A.
    rewrite A. case_bool_decide; [apply Look|done]. }
  intros [[u Hu]|[[s Hs]|Hf]].
  - by eapply Url.
  - destruct (inv_nonempty _ _ _ J r s Hs) as [u Hu].
    apply (Url u). apply (inv_inverse _ _ _ J). by eauto.
  - apply (Look (firstPartyUrlOf (data_URL data))).
    rewrite (resolution_lookup _ _ _ _ R). done.
Qed.

End Compute.

(** * The claims *)

Section Claims.
Context `{Imports}.

(** C1, as amended: in the result of a run, two request URLs that the
    known-entity reference does not match and that have the same canonical
    key (the same root domain, or the same extension origin) are mapped to
    the very same entity: the two references are equal. *)
Theorem same_key_same_entity data c m u1 u2 e1 e2 key b1 b2 :
  compute_ data = Normal (c, m) ->
  entityByUrl c !! u1 = Some e1 ->
  entityByUrl c !! u2 = Some e2 ->
  unmatchedKey u1 key b1 ->
  unmatchedKey u2 key b2 ->
  e1 = e2.
Proof.
  intros C E1 E2 [G1 K1] [G2 K2].
  apply compute_computes in C as (records & m0 & m1 & C).
  rewrite (entityByUrl_lookup _ _ _ _ _ _ u1 C) in E1.
  rewrite (entityByUrl_lookup _ _ _ _ _ _ u2 C) in E2.
  case_bool_decide; [|done]. case_bool_decide; [|done].
  unfold lookupEntity in E1, E2. rewrite G1, K1 in E1. rewrite G2, K2 in E2.
  congruence.
Qed.

(** C2: in the result of a run, [urlsByEntity] is the inverse index of
    [entityByUrl]: a URL is in the set of an entity exactly when
    [entityByUrl] maps it to that entity, and an entity to which no URL is
    mapped has no set at all. *)
Theorem urlsByEntity_inverse data c m :
  compute_ data = Normal (c, m) ->
  (forall u e,
     (exists s, urlsByEntity c !! e = Some s /\ u ∈ s) <->
     entityByUrl c !! u = Some e) /\
  (forall e, (forall u, entityByUrl c !! u <> Some e) -> urlsByEntity c !! e = None).
Proof.
  intros C. apply compute_computes in C as (records & m0 & m1 & C).
  destruct (computes_inv _ _ _ _ _ _ C) as (_ & _ & _ & _ & _ & J). split.
  - intros u e. symmetry. apply (inv_inverse _ _ _ J).
  - intros e None_. destruct (urlsByEntity c !! e) as [s|] eqn:E; [|done].
    destruct (inv_nonempty _ _ _ J e s E) as [u Hu].
    destruct (None_ u). apply (inv_inverse _ _ _ J). by eauto.
Qed.

(** C10: when the first-party URL of the page cannot be classified (the
    reference does not match it and it has no canonical key), [firstParty]
    is absent, and [isFirstParty] answers true for every URL that is absent
    from [entityByUrl]. *)
Theorem isFirstParty_of_absent data c m :
  compute_ data = Normal (c, m) ->
  thirdPartyWeb_getEntity (firstPartyUrlOf (data_URL data)) = None ->
  canonicalKey (firstPartyUrlOf (data_URL data)) = None ->
  firstParty c = None /\
  forall u, entityByUrl c !! u = None -> isFirstParty c u = true.
Proof.
  intros C G K. apply compute_computes in C as (records & m0 & m1 & C).
  destruct (computes_inv _ _ _ _ _ _ C) as (_ & _ & R & _).
  assert (firstParty c = None) as F.
  { rewrite <- (resolution_lookup _ _ _ _ R). unfold lookupEntity. by rewrite G, K. }
  split; [done|]. intros u E. unfold isFirstParty. rewrite E, F.
  by apply bool_decide_eq_true_2.
Qed.

(** ** The order of the records *)

Lemma classifyRecordsIn_app l1 : forall maps m l2,
  classifyRecordsIn maps m (l1 ++ l2) =
  classifyRecordsIn (classifyRecordsIn maps m l1).1 (classifyRecordsIn maps m l1).2 l2.
Proof.
  induction l1 as [|r rest IH]; intros maps m l2; simpl; [done|].
  destruct (classifyRecordIn maps m r) as [maps' m']. apply IH.
Qed.

Lemma classifyRecordIn_keeps maps m record u e :
  maps.1 !! u = Some e -> (classifyRecordIn maps m record).1.1 !! u = Some e.
Proof.
  intros E. unfold classifyRecordIn.
  destruct (maps.1 !! url record) as [e'|] eqn:F; [done|].
  destruct (resolveIn m (url record)) as [[e'|] m']; [|done]. simpl.
  rewrite lookup_insert_ne; [done|]. intros <-. congruence.
Qed.

Lemma classifyRecordsIn_keeps records : forall maps m u e,
  maps.1 !! u = Some e -> (classifyRecordsIn maps m records).1.1 !! u = Some e.
Proof.
  induction records as [|r rest IH]; intros maps m u e E; simpl; [done|].
  pose proof (classifyRecordIn_keeps maps m r u e E) as E'.
  destruct (classifyRecordIn maps m r) as [maps' m']. by apply IH.
Qed.

(** A URL that cannot be classified at all: the step leaves everything as
    it is. *)
Lemma classifyRecordIn_unclassifiable maps m record :
  thirdPartyWeb_getEntity (url record) = None ->
  canonicalKey (url record) = None ->
  classifyRecordIn maps m record = (maps, m).
Proof.
  intros G K. unfold classifyRecordIn, resolveIn. rewrite G, K.
  by destruct (maps.1 !! url record).
Qed.

(** Once a URL went through the loop it is in [entityByUrl], or it cannot be
    classified at all. *)
Lemma classifyRecordIn_settles maps m record :
  is_Some ((classifyRecordIn maps m record).1.1 !! url record) \/
  (thirdPartyWeb_getEntity (url record) = None /\ canonicalKey (url record) = None).
Proof.
  unfold classifyRecordIn.
  destruct (maps.1 !! url record) as [e|] eqn:E; [left; by eauto|].
  pose proof (resolveIn_resolution m (url record)) as R.
  destruct (resolveIn m (url record)) as [[e|] m']; simpl in *.
  - left. rewrite lookup_insert_eq. by eauto.
  - right. by inversion R.
Qed.

Lemma classifyRecordsIn_settles records : forall maps m u,
  u ∈ url <$> records ->
  is_Some ((classifyRecordsIn maps m records).1.1 !! u) \/
  (thirdPartyWeb_getEntity u = None /\ canonicalKey u = None).
Proof.
  induction records as [|r rest IH]; intros maps m u Hu.
  - by apply elem_of_nil in Hu.
  - rewrite fmap_cons in Hu. cbn [classifyRecordsIn].
    destruct (decide (u ∈ url <$> rest)) as [In|Out].
    + destruct (classifyRecordIn maps m r) as [maps' m']. by apply IH.
    + apply elem_of_cons in Hu as [->|?]; [|done].
      destruct (classifyRecordIn_settles maps m r) as [[e Some_]|?]; [|by right].
      left. exists e. pose proof (classifyRecordsIn_keeps rest _
        (classifyRecordIn maps m r).2 _ _ Some_) as Keep.
      by destruct (classifyRecordIn maps m r) as [maps' m'].
Qed.

(** A record whose URL an earlier record carried changes nothing. *)
Lemma classifyRecordIn_again maps m l1 record :
  url record ∈ url <$> l1 ->
  classifyRecordIn (classifyRecordsIn maps m l1).1 (classifyRecordsIn maps m l1).2 record
  = classifyRecordsIn maps m l1.
Proof.
  intros Hu.
  destruct (classifyRecordsIn_settles l1 maps m _ Hu) as [[e Some_]|[G K]].
  - destruct (classifyRecordsIn maps m l1) as [maps1 m1]. simpl in *.
    unfold classifyRecordIn. by rewrite Some_.
  - destruct (classifyRecordsIn maps m l1) as [maps1 m1]. simpl.
    by apply classifyRecordIn_unclassifiable.
Qed.

(** C4: the loop takes the records in the order of the list, one after the
    other; an entry of [entityByUrl] is never overwritten, so that the first
    record with a URL decides its entry; and a later record with a URL that
    an earlier record carried is skipped: the loop ends as it does without
    that record. *)
Theorem first_classification_wins maps m l1 record l2 :
  url record ∈ url <$> l1 ->
  classifyRecords maps (l1 ++ record :: l2) m = classifyRecords maps (l1 ++ l2) m /\
  classifyRecords maps (l1 ++ l2) m =
    bind (classifyRecords maps l1) (fun maps1 => classifyRecords maps1 l2) m /\
  (forall maps1 m1 maps2 m2 u e,
     classifyRecords maps l1 m = Normal (maps1, m1) ->
     classifyRecords maps1 l2 m1 = Normal (maps2, m2) ->
     maps1.1 !! u = Some e -> maps2.1 !! u = Some e).
Proof.
  intros Hu. split; [|split].
  - rewrite !classifyRecords_eq, !classifyRecordsIn_app. f_equal.
    cbn [classifyRecordsIn]. rewrite (classifyRecordIn_again _ _ _ _ Hu).
    by destruct (classifyRecordsIn maps m l1).
  - unfold bind. rewrite !classifyRecords_eq, classifyRecordsIn_app.
    destruct (classifyRecordsIn maps m l1) as [maps1 m1]. simpl.
    by rewrite classifyRecords_eq.
  - intros maps1 m1 maps2 m2 u e _ E2 E. rewrite classifyRecords_eq in E2.
    injection E2 as E2. pose proof (classifyRecordsIn_keeps l2 maps1 m1 u e E) as K.
    by rewrite E2 in K.
Qed.

(** ** Extensions *)

(** C3, as amended: when the first [Runtime.executionContextCreated] event
    of the log for an extension origin has the context name [n], every
    network record that the reference does not match and whose canonical key
    is that origin is mapped to the preloaded entity: category "Chrome
    Extension", name and company [n], the store page as homepage, and no
    [isUnrecognized]. *)
Theorem extension_precedence data c m records l1 entry l2 o record b :
  compute_ data = Normal (c, m) ->
  NetworkRecords_request (devtoolsLog data) = Normal records ->
  devtoolsLog data = (l1 ++ entry :: l2)%list ->
  extensionEventFor o entry ->
  (forall e, e ∈ l1 -> ~ extensionEventFor o e) ->
  record ∈ records ->
  unmatchedKey (url record) o b ->
  exists a p ent,
    URL_new o = Some p /\
    entityByUrl c !! url record = Some (Made a) /\
    deref m (Made a) = Some ent /\
    category ent = "Chrome Extension" /\
    name ent = Protocol.name (Protocol.context (Protocol.params entry)) /\
    company ent = Protocol.name (Protocol.context (Protocol.params entry)) /\
    homepage ent = Some ("https://chromewebstore.google.com/detail/" ++ host p) /\
    isUnrecognized ent = None.
Proof.
  intros C N L Ev First In_ [G K].
  apply compute_computes in C as (records' & m0 & m1 & C).
  assert (records' = records) as -> by (destruct C as [N' _]; congruence).
  pose proof C as (_ & P & _). rewrite L in P.
  destruct (preload_first _ _ _ _ _ Ev First P) as (a & p & Hp & Hc & Ho).
  destruct (computes_inv _ _ _ _ _ _ C) as (_ & _ & _ & I & _).
  pose proof (inv_extends _ _ _ I) as X.
  exists a, p, (extensionEntity (Protocol.name (Protocol.context (Protocol.params entry)))
                  (host p)).
  split; [done|]. split.
  - rewrite (entityByUrl_lookup _ _ _ _ _ _ (url record) C).
    rewrite bool_decide_eq_true_2 by (by apply list_elem_of_fmap_2).
    unfold lookupEntity. rewrite G, K. by apply X.
  - split; [|done]. simpl. by eapply extends_lookup.
Qed.

(** ** Placeholders *)

(** C7: for a URL that the reference does not match and whose canonical key
    is not in the cache, the lookup makes a new entity: name and company are
    the key, [domains] is the one root domain for a web URL and empty for an
    extension URL, [isUnrecognized] is true, category and categories are
    empty, the three counters are zero; the entity is in the cache under the
    key when it is returned. *)
Theorem makeUpAnEntity_new url m key isChromeExtension :
  thirdPartyWeb_getEntity url = None ->
  canonicalKey url = Some (key, isChromeExtension) ->
  entityCache m !! key = None ->
  exists m' ent p,
    makeUpAnEntity url m = Normal (Some (Made (length (objects m))), m') /\
    or_else (thirdPartyWeb_getEntity url) (makeUpAnEntity url) m
      = Normal (Some (Made (length (objects m))), m') /\
    URL_new url = Some p /\
    isChromeExtension = String.eqb (protocol p) "chrome-extension:" /\
    key = (if isChromeExtension
           then Util_getChromeExtensionOrigin url else Util_getRootDomain url) /\
    entityCache m' = <[key := Made (length (objects m))]> (entityCache m) /\
    objects m' = (objects m ++ [ent])%list /\
    deref m' (Made (length (objects m))) = Some ent /\
    name ent = key /\ company ent = key /\
    domains ent = (if isChromeExtension then [] else [key]) /\
    isUnrecognized ent = Some true /\
    category ent = "" /\ categories ent = [] /\
    averageExecutionTime ent = 0%Z /\ totalExecutionTime ent = 0%Z /\
    totalOccurrences ent = 0%Z.
Proof.
  intros G K C.
  exists {| objects := objects m ++ [placeholderEntity key isChromeExtension];
            entityCache := <[key := Made (length (objects m))]> (entityCache m) |},
         (placeholderEntity key isChromeExtension).
  assert (makeUpAnEntity url m = Normal (Some (Made (length (objects m))),
    {| objects := objects m ++ [placeholderEntity key isChromeExtension];
       entityCache := <[key := Made (length (objects m))]> (entityCache m) |})) as E
    by (by rewrite makeUpAnEntity_eq, K, C).
  unfold canonicalKey in K. destruct (URL_new url) as [p|]; [|done].
  exists p. destruct (_ && _); [done|]. destruct (truthy _); [|done].
  injection K as <- <-. rewrite G. simpl.
  repeat (split; [done|]). split; [|done].
  rewrite lookup_app_r by lia. by rewrite Nat.sub_diag.
Qed.

(** ** First party *)

(** C5: the first-party URL is [mainDocumentUrl] when the page has one (a
    non-empty one) and [finalDisplayedUrl] when [mainDocumentUrl] is absent
    (or the empty string, which is as good as absent to JavaScript);
    it goes through the same lookup as the records, the reference first and
    then [makeUpAnEntity] on the same cache, in the memory that the loop
    left; and when the reference does not match it and neither an extension
    event nor a record has its key, [firstParty] is a new placeholder that
    is put into the cache and that no URL is mapped to. *)
Theorem firstParty_resolution data c m :
  compute_ data = Normal (c, m) ->
  let fp := firstPartyUrlOf (data_URL data) in
  (mainDocumentUrl (data_URL data) = None \/ mainDocumentUrl (data_URL data) = Some "" ->
   fp = finalDisplayedUrl (data_URL data)) /\
  (forall u, mainDocumentUrl (data_URL data) = Some u -> u <> "" -> fp = u) /\
  exists records m0 maps m1,
    NetworkRecords_request (devtoolsLog data) = Normal records /\
    preloadChromeExtensionsToCache_ (devtoolsLog data) emptyMem = Normal (tt, m0) /\
    classifyRecords (∅, ∅) records m0 = Normal (maps, m1) /\
    or_else (thirdPartyWeb_getEntity fp) (makeUpAnEntity fp) m1
      = Normal (firstParty c, m) /\
    forall key b,
      unmatchedKey fp key b ->
      (forall entry, entry ∈ devtoolsLog data -> ~ extensionEventFor key entry) ->
      (forall r b', r ∈ records -> ~ unmatchedKey (url r) key b') ->
      entityCache m1 !! key = None /\
      firstParty c = Some (Made (length (objects m1))) /\
      entityCache m !! key = Some (Made (length (objects m1))) /\
      deref m (Made (length (objects m1))) = Some (placeholderEntity key b) /\
      urlsByEntity c !! Made (length (objects m1)) = None /\
      (forall u, entityByUrl c !! u <> Some (Made (length (objects m1)))).
Proof.
  intros C fp. split; [|split].
  - unfold fp, firstPartyUrlOf. by intros [->| ->].
  - unfold fp, firstPartyUrlOf. intros u -> Hu.
    apply truthy_spec in Hu. by rewrite Hu.
  - apply compute_computes in C as (records & m0 & m1 & C).
    exists records, m0, (entityByUrl c, urlsByEntity c), m1.
    pose proof C as (N & P & L & F). repeat (split; [done|]).
    destruct (computes_inv _ _ _ _ _ _ C) as (I0 & I1 & R & _ & J1 & _).
    intros key b [G K] NoEvent NoRecord.
    assert (entityCache m1 !! key = None) as Free.
    { destruct (entityCache m1 !! key) as [r|] eqn:E; [|done].
      destruct (inv_cache_prov _ _ _ I1 key r E)
        as [Pre|[_ (u & b' & a & Hu & Hk & _)]].
      - destruct (pre_keys _ _ I0 key r Pre) as (entry & ? & ?).
        by destruct (NoEvent entry).
      - apply elem_of_list_to_set, list_elem_of_fmap in Hu as (r' & -> & ?).
        by destruct (NoRecord r' b'). }
    assert (forall u, entityByUrl c !! u <> Some (Made (length (objects m1)))) as Fresh.
    { intros u E. pose proof (inv_entityByUrl _ _ _ J1 u) as A. simpl in A.
      rewrite E in A. case_bool_decide; [|done]. unfold lookupEntity in A.
      destruct (thirdPartyWeb_getEntity u); [done|].
      destruct (canonicalKey u) as [[k' b']|]; [|done]. symmetry in A.
      destruct (inv_cache_wf _ _ _ I1 k' _ A) as (a & [= <-] & ?). lia. }
    split; [done|].
    unfold fp in *.
    inversion R as [i G'|G' K'|k' b' r [G' K'] C'|k' b' [G' K'] C'];
      subst; try congruence.
    assert (k' = key /\ b' = b) as [-> ->] by (split; congruence).
    split; [done|]. simpl. rewrite lookup_insert_eq. split; [done|].
    rewrite lookup_app_r by lia. rewrite Nat.sub_diag. split; [done|].
    split; [|done].
    destruct (urlsByEntity c !! Made (length (objects m1))) as [s|] eqn:E; [|done].
    destruct (inv_nonempty _ _ _ J1 _ s E) as [u Hu].
    destruct (Fresh u). apply (inv_inverse _ _ _ J1). by eauto.
Qed.

(** ** URLs without a key *)

(** C6, as amended: a record whose URL the reference does not match and
    which cannot be parsed, has a scheme that is neither the extension scheme
    nor one that starts with http, or has an empty root domain, raises no
    error and changes nothing: the loop ends as it does without the record,
    it never throws, the URL is in no entry of [entityByUrl] and in no set of
    [urlsByEntity]; and [compute_] throws only when the provider of the
    records or the preload of the log does. *)
Theorem invalid_url_omitted record :
  thirdPartyWeb_getEntity (url record) = None ->
  malformed (url record) \/ unsupportedScheme (url record) \/ noRootDomain (url record) ->
  (forall maps m, classifyRecord maps record m = Normal (maps, m)) /\
  (forall maps m l1 l2,
     classifyRecords maps (l1 ++ record :: l2) m = classifyRecords maps (l1 ++ l2) m) /\
  (forall maps m records, exists maps' m',
     classifyRecords maps records m = Normal (maps', m')) /\
  (forall data c m, compute_ data = Normal (c, m) ->
     entityByUrl c !! url record = None /\
     forall e s, urlsByEntity c !! e = Some s -> url record ∉ s) /\
  (forall data e, compute_ data = Throw e ->
     NetworkRecords_request (devtoolsLog data) = Throw e \/
     preloadChromeExtensionsToCache_ (devtoolsLog data) emptyMem = Throw e).
Proof.
  intros G Bad. apply canonicalKey_None in Bad as K.
  split; [|split; [|split; [|split]]].
  - intros maps m. rewrite classifyRecord_eq.
    by rewrite classifyRecordIn_unclassifiable.
  - intros maps m l1 l2. rewrite !classifyRecords_eq, !classifyRecordsIn_app.
    cbn [classifyRecordsIn]. rewrite classifyRecordIn_unclassifiable by done.
    by destruct (classifyRecordsIn maps m l1).
  - intros maps m records. rewrite classifyRecords_eq.
    destruct (classifyRecordsIn maps m records) as [maps' m']. by eauto.
  - intros data c m C. apply compute_computes in C as (records & m0 & m1 & C).
    assert (entityByUrl c !! url record = None) as E.
    { rewrite (entityByUrl_lookup _ _ _ _ _ _ (url record) C).
      case_bool_decide; [|done]. unfold lookupEntity. by rewrite G, K. }
    split; [done|]. intros e s Hs Hu.
    destruct (computes_inv _ _ _ _ _ _ C) as (_ & _ & _ & _ & _ & J).
    assert (entityByUrl c !! url record = Some e) by (apply (inv_inverse _ _ _ J); eauto).
    congruence.
  - intros data e. unfold compute_, classify, bind.
    destruct (NetworkRecords_request (devtoolsLog data)) as [records|];
      [|intros [= ->]; by left].
    destruct (preloadChromeExtensionsToCache_ _ emptyMem) as [[[] m0]|];
      [|intros [= ->]; by right].
    rewrite classifyRecords_eq.
    destruct (classifyRecordsIn (∅, ∅) m0 records) as [maps m1].
    rewrite resolve_eq. by destruct (resolveIn m1 _).
Qed.

(** ** The flag of unrecognized entities *)

(** C8, as amended: with a dataset in which no entity has [isUnrecognized]
    set to true, every entity that a result hands out and that has
    [isUnrecognized] true is a placeholder that [makeUpAnEntity] made, after
    the preload, for a record URL or the first-party URL that the reference
    does not match, under the canonical key of that URL: a root domain, or
    the origin of an extension that the log has no event for. *)
Theorem isUnrecognized_only_placeholders data c m r ent :
  (forall i, isUnrecognized (thirdPartyWeb_entities i) <> Some true) ->
  compute_ data = Normal (c, m) ->
  reachable c r ->
  deref m r = Some ent ->
  isUnrecognized ent = Some true ->
  exists records m0 a u key b,
    NetworkRecords_request (devtoolsLog data) = Normal records /\
    preloadChromeExtensionsToCache_ (devtoolsLog data) emptyMem = Normal (tt, m0) /\
    r = Made a /\ length (objects m0) <= a /\
    entityCache m0 !! key = None /\
    (forall entry, entry ∈ devtoolsLog data -> ~ extensionEventFor key entry) /\
    (u ∈ url <$> records \/ u = firstPartyUrlOf (data_URL data)) /\
    unmatchedKey u key b /\
    ent = placeholderEntity key b /\
    entityCache m !! key = Some (Made a).
Proof.
  intros Dataset C Reach D U.
  apply compute_computes in C as (records & m0 & m1 & C).
  destruct (reachable_wf _ _ _ _ _ _ r C Reach) as [[i ->]|(a & -> & Ha)].
  { simpl in D. injection D as <-. by destruct (Dataset i). }
  simpl in D. pose proof C as (N & P & _).
  destruct (computes_inv _ _ _ _ _ _ C) as (I0 & _ & _ & I & _).
  destruct (decide (a < length (objects m0))) as [Old|New].
  { destruct (lookup_lt_is_Some_2 _ _ Old) as [ent0 E0].
    rewrite (extends_lookup _ _ _ _ (inv_extends _ _ _ I) E0) in D.
    injection D as <-. destruct (pre_objects _ _ I0 a ent0 E0) as (n & h & ->). done. }
  destruct (inv_object_prov _ _ _ I a ent ltac:(lia) D) as (u & key & b & Hu & Hk & -> & Hc).
  assert (entityCache m0 !! key = None) as Free.
  { destruct (inv_cache_prov _ _ _ I key _ Hc) as [Pre|[? _]]; [|done].
    destruct (pre_cache_wf _ _ I0 key _ Pre) as (a' & [= <-] & ?). lia. }
  exists records, m0, a, u, key, b. repeat (split; [done || lia|]).
  split; [|split; [|done]].
  - intros entry In_ Ev. pose proof P as P'.
    destruct (first_event key _ entry In_ Ev) as (l1' & entry' & l2' & L' & Ev' & First).
    rewrite L' in P'.
    destruct (preload_first _ _ _ _ _ Ev' First P') as (a' & p & _ & Hc' & _).
    congruence.
  - apply elem_of_union in Hu as [->%elem_of_singleton|Hu]; [by right|left].
    by apply elem_of_list_to_set in Hu.
Qed.

End Claims.

Lemma same_key_same_entity_witness :
  @compute_ (Demo.imports Demo.sampleUrls) Demo.samplePage
    = Normal ((Demo.result Demo.sampleUrls Demo.samplePage).1,
              (Demo.result Demo.sampleUrls Demo.samplePage).2) /\
  entityByUrl (Demo.result Demo.sampleUrls Demo.samplePage).1
    !! "https://sub.example.com/a" = Some (Made 1) /\
  entityByUrl (Demo.result Demo.sampleUrls Demo.samplePage).1
    !! "https://other.example.com/b" = Some (Made 1) /\
  @unmatchedKey (Demo.imports Demo.sampleUrls)
    "https://sub.example.com/a" "example.com" false /\
  @unmatchedKey (Demo.imports Demo.sampleUrls)
    "https://other.example.com/b" "example.com" false /\
  Made 1 = Made 1.
Proof.
  pose (c := (Demo.result Demo.sampleUrls Demo.samplePage).1).
  pose (m := (Demo.result Demo.sampleUrls Demo.samplePage).2).
  pose (u1 := "https://sub.example.com/a").
  pose (u2 := "https://other.example.com/b").
  assert (@compute_ (Demo.imports Demo.sampleUrls) Demo.samplePage = Normal (c, m))
    as C by evaluated.
  assert (entityByUrl c !! u1 = Some (Made 1)) as E1 by evaluated.
  assert (entityByUrl c !! u2 = Some (Made 1)) as E2 by evaluated.
  assert (@unmatchedKey (Demo.imports Demo.sampleUrls) u1 "example.com" false)
    as K1 by evaluated.
  assert (@unmatchedKey (Demo.imports Demo.sampleUrls) u2 "example.com" false)
    as K2 by evaluated.
  repeat (split; [assumption|]).
  exact (same_key_same_entity _ _ _ _ _ _ _ _ _ _ C E1 E2 K1 K2).
Defined.

(** C1, as stated, fails: both URLs are in [entityByUrl] and have the
    canonical key googleapis.com, yet the dataset, which is asked first, gives
    them to two different entities. *)
Lemma same_root_domain_two_entities :
  @canonicalKey (Demo.imports Demo.googleUrls) "https://fonts.googleapis.com/css"
    = Some ("googleapis.com", false) /\
  @canonicalKey (Demo.imports Demo.googleUrls) "https://ajax.googleapis.com/jquery.js"
    = Some ("googleapis.com", false) /\
  @compute_ (Demo.imports Demo.googleUrls) Demo.samplePage
    = Normal (Demo.result Demo.googleUrls Demo.samplePage) /\
  entityByUrl (Demo.result Demo.googleUrls Demo.samplePage).1
    !! "https://fonts.googleapis.com/css" = Some (Known 0) /\
  entityByUrl (Demo.result Demo.googleUrls Demo.samplePage).1
    !! "https://ajax.googleapis.com/jquery.js" = Some (Known 1) /\
  Known 0 <> Known 1.
Proof. evaluated. Qed.

(** * The computed-artifact wrapper *)

Section SingleFlight.
Import ComputedArtifact.
Context {Inputs Fingerprint Result : Type} `{Countable Fingerprint}.
Variable fingerprint : Inputs -> Fingerprint.

Local Abbreviation Ctx := (@Context Fingerprint Result _ _).
Local Abbreviation Act := (@Action Inputs Result).

Lemma cacheInv_new : cacheInv (newContext : Ctx).
Proof. intros key. unfold newContext. simpl. by rewrite lookup_empty. Qed.

Lemma invocations_cons key key' (ctx ctx' : Ctx) :
  producerCalls ctx' = key' :: producerCalls ctx ->
  invocations key ctx' = (if decide (key' = key) then 1 else 0) + invocations key ctx.
Proof.
  unfold invocations. intros ->. rewrite filter_cons.
  destruct (decide (key' = key)); done.
Qed.

Lemma request_inv artifact inputs (ctx : Ctx) :
  cacheInv ctx ->
  cacheInv (request fingerprint artifact inputs ctx).2 /\
  (forall key p, computedCache ctx !! key = Some p ->
     computedCache (request fingerprint artifact inputs ctx).2 !! key = Some p) /\
  (forall p o, observe ctx p = Some o ->
     observe (request fingerprint artifact inputs ctx).2 p = Some o) /\
  computedCache (request fingerprint artifact inputs ctx).2
    !! (artifact, fingerprint inputs)
  = Some (request fingerprint artifact inputs ctx).1.
Proof.
  intros I. unfold request.
  pose proof (I (artifact, fingerprint inputs)) as Here.
  destruct (computedCache ctx !! (artifact, fingerprint inputs)) as [p|] eqn:E; simpl.
  - by rewrite E.
  - split; [|split; [|split]].
    + intros key. simpl. rewrite lookup_insert.
      rewrite (invocations_cons key (artifact, fingerprint inputs) ctx) by done.
      pose proof (I key) as There. repeat case_decide; try done.
      * subst key. rewrite Here, length_app. simpl. lia.
      * destruct (computedCache ctx !! key); [|done].
        rewrite length_app. simpl. lia.
    + intros key p Hp. rewrite lookup_insert_ne; [done|congruence].
    + intros p o. unfold observe. simpl.
      destruct (promises ctx !! p) as [o'|] eqn:L; [|done].
      by rewrite (lookup_app_l_Some _ _ _ _ L).
    + by rewrite lookup_insert_eq.
Qed.

Lemma settle_inv p o (ctx : Ctx) :
  cacheInv ctx ->
  cacheInv (settle p o ctx) /\
  computedCache (settle p o ctx) = computedCache ctx /\
  (forall q o', observe ctx q = Some o' -> observe (settle p o ctx) q = Some o').
Proof.
  intros I. unfold settle.
  destruct (promises ctx !! p) as [[o0|]|] eqn:L; [done| |done].
  split; [|split; [done|]].
  - intros key. pose proof (I key) as There. simpl.
    destruct (computedCache ctx !! key); [|done]. by rewrite length_insert.
  - intros q o'. unfold observe. simpl.
    destruct (decide (q = p)) as [->|D]; [by rewrite L|].
    by rewrite list_lookup_insert_ne.
Qed.

Lemma run_inv (acts : list Act) : forall ctx : Ctx,
  cacheInv ctx ->
  cacheInv (run fingerprint acts ctx).2 /\
  (forall key p, computedCache ctx !! key = Some p ->
     computedCache (run fingerprint acts ctx).2 !! key = Some p) /\
  (forall p o, observe ctx p = Some o ->
     observe (run fingerprint acts ctx).2 p = Some o) /\
  (forall artifact f p, (artifact, f, p) ∈ (run fingerprint acts ctx).1 ->
     computedCache (run fingerprint acts ctx).2 !! (artifact, f) = Some p) /\
  (forall artifact inputs, Request artifact inputs ∈ acts ->
     exists p, (artifact, fingerprint inputs, p) ∈ (run fingerprint acts ctx).1).
Proof.
  induction acts as [|[artifact inputs|p o] rest IH]; intros ctx I.
  - simpl. repeat (split; [done|]). split.
    + intros ? ? ? In_. by apply elem_of_nil in In_.
    + intros ? ? In_. by apply elem_of_nil in In_.
  - cbn [run]. destruct (request_inv artifact inputs ctx I) as (I' & Keep & Seen & Here).
    destruct (request fingerprint artifact inputs ctx) as [p ctx'] eqn:Rq.
    cbn [fst snd] in *.
    destruct (IH ctx' I') as (I'' & Keep' & Seen' & Answers & Asked).
    destruct (run fingerprint rest ctx') as [answers ctx''] eqn:Rn.
    cbn [fst snd] in *. split; [done|]. split; [by eauto|]. split; [by eauto|]. split.
    + intros a f q [[= -> -> ->]|In_]%elem_of_cons; [by apply Keep'|by apply Answers].
    + intros a i [[= -> ->]|In_]%elem_of_cons.
      * exists p. by apply elem_of_cons; left.
      * destruct (Asked a i In_) as [q Hq]. exists q. by apply elem_of_cons; right.
  - cbn [run]. destruct (settle_inv p o ctx I) as (I' & Same & Seen).
    destruct (IH (settle p o ctx) I') as (I'' & Keep' & Seen' & Answers & Asked).
    split; [done|]. split; [|split; [by eauto|split; [done|]]].
    + intros key q Hq. apply Keep'. by rewrite Same.
    + intros a i [?|In_]%elem_of_cons; [done|by apply Asked].
Qed.

Lemma run_app (acts1 acts2 : list Act) (ctx : Ctx) :
  (run fingerprint (acts1 ++ acts2) ctx).2
  = (run fingerprint acts2 (run fingerprint acts1 ctx).2).2.
Proof.
  revert ctx. induction acts1 as [|[artifact inputs|p o] rest IH]; intros ctx.
  - done.
  - cbn [app run]. destruct (request fingerprint artifact inputs ctx) as [p ctx'].
    specialize (IH ctx').
    destruct (run fingerprint (rest ++ acts2) ctx') as [a1 c1].
    destruct (run fingerprint rest ctx') as [a2 c2]. done.
  - cbn [app run]. apply IH.
Qed.

(** C9: in a run that starts with a new context, whatever the order of the
    requests and of the completions, once an artifact was requested with
    some inputs its producer has been invoked exactly once for that
    fingerprint; all requests for the artifact with fingerprint-equal inputs
    were answered with the same promise, so that their callers observe the
    same outcome; and an outcome, result or failure, that a promise has
    stays its outcome for the rest of the run. *)
Theorem single_flight (acts : list Act) artifact inputs :
  Request artifact inputs ∈ acts ->
  invocations (artifact, fingerprint inputs) (run fingerprint acts newContext).2 = 1 /\
  (exists p, forall inputs' q,
     fingerprint inputs' = fingerprint inputs ->
     (artifact, fingerprint inputs', q) ∈ (run fingerprint acts newContext).1 ->
     q = p /\
     observe (run fingerprint acts newContext).2 q
     = observe (run fingerprint acts newContext).2 p) /\
  (forall later p o,
     observe (run fingerprint acts newContext).2 p = Some o ->
     observe (run fingerprint (acts ++ later) newContext).2 p = Some o).
Proof.
  intros Asked.
  destruct (run_inv acts newContext cacheInv_new) as (I & _ & _ & Answers & Ask).
  destruct (Ask artifact inputs Asked) as [p Hp].
  pose proof (Answers _ _ _ Hp) as Cached. split; [|split].
  - pose proof (I (artifact, fingerprint inputs)) as Here.
    rewrite Cached in Here. by destruct Here.
  - exists p. intros inputs' q Eq In_. rewrite Eq in In_.
    pose proof (Answers _ _ _ In_) as Cached'.
    assert (q = p) as -> by congruence. done.
  - intros later q o Ob. rewrite run_app.
    by apply (run_inv later _ I).
Qed.

End SingleFlight.

(** * The claims at concrete inputs *)

Lemma urlsByEntity_inverse_witness :
  @compute_ (Demo.imports Demo.sampleUrls) Demo.samplePage
    = Normal ((Demo.result Demo.sampleUrls Demo.samplePage).1,
              (Demo.result Demo.sampleUrls Demo.samplePage).2) /\
  forall e,
    (forall u, entityByUrl (Demo.result Demo.sampleUrls Demo.samplePage).1 !! u
               <> Some e) ->
    urlsByEntity (Demo.result Demo.sampleUrls Demo.samplePage).1 !! e = None.
Proof.
  assert (@compute_ (Demo.imports Demo.sampleUrls) Demo.samplePage
          = Normal ((Demo.result Demo.sampleUrls Demo.samplePage).1,
                    (Demo.result Demo.sampleUrls Demo.samplePage).2)) as C
    by evaluated.
  split; [exact C|].
  exact (proj2 (@urlsByEntity_inverse (Demo.imports Demo.sampleUrls) _ _ _ C)).
Defined.

Lemma isFirstParty_of_absent_witness :
  @compute_ (Demo.imports Demo.sampleUrls) Demo.blankPage
    = Normal ((Demo.result Demo.sampleUrls Demo.blankPage).1,
              (Demo.result Demo.sampleUrls Demo.blankPage).2) /\
  firstParty (Demo.result Demo.sampleUrls Demo.blankPage).1 = None /\
  isFirstParty (Demo.result Demo.sampleUrls Demo.blankPage).1 "data:text/plain,hi"
    = true.
Proof.
  assert (@compute_ (Demo.imports Demo.sampleUrls) Demo.blankPage
          = Normal ((Demo.result Demo.sampleUrls Demo.blankPage).1,
                    (Demo.result Demo.sampleUrls Demo.blankPage).2)) as C
    by evaluated.
  destruct (@isFirstParty_of_absent (Demo.imports Demo.sampleUrls) _ _ _ C)
    as [F P]; [evaluated|evaluated|].
  split; [exact C|]. split; [exact F|]. apply P. evaluated.
Defined.

Lemma first_classification_wins_witness :
  @classifyRecords (Demo.imports Demo.sampleUrls) (∅, ∅)
    ([{| url := "https://sub.example.com/a" |};
      {| url := "https://cdn.other.com/lib.js" |}]
     ++ {| url := "https://sub.example.com/a" |} :: []) emptyMem
  = @classifyRecords (Demo.imports Demo.sampleUrls) (∅, ∅)
    ([{| url := "https://sub.example.com/a" |};
      {| url := "https://cdn.other.com/lib.js" |}] ++ []) emptyMem.
Proof.
  assert ("https://sub.example.com/a"
          ∈ url <$> [{| url := "https://sub.example.com/a" |};
                     {| url := "https://cdn.other.com/lib.js" |}]) as Seen
    by (rewrite !fmap_cons; apply list_elem_of_here).
  exact (proj1 (@first_classification_wins (Demo.imports Demo.sampleUrls)
                  (∅, ∅) emptyMem
                  [{| url := "https://sub.example.com/a" |};
                   {| url := "https://cdn.other.com/lib.js" |}]
                  {| url := "https://sub.example.com/a" |} [] Seen)).
Defined.

Lemma makeUpAnEntity_new_witness :
  exists m' ent,
    @makeUpAnEntity (Demo.imports Demo.sampleUrls) "https://sub.example.com/a" emptyMem
      = Normal (Some (Made 0), m') /\
    entityCache m' !! "example.com" = Some (Made 0) /\
    objects m' = [ent] /\
    name ent = "example.com" /\ domains ent = ["example.com"] /\
    isUnrecognized ent = Some true.
Proof.
  destruct (@makeUpAnEntity_new (Demo.imports Demo.sampleUrls)
              "https://sub.example.com/a" emptyMem "example.com" false)
    as (m' & ent & p & E & _ & _ & _ & _ & C & O & _ & N & _ & D & U & _);
    [evaluated|evaluated|evaluated|].
  exists m', ent. split; [exact E|]. split; [by rewrite C|].
  split; [exact O|]. split; [exact N|]. split; [exact D|exact U].
Defined.

Lemma extension_precedence_witness :
  @compute_ (Demo.imports Demo.sampleUrls) Demo.samplePage
    = Normal ((Demo.result Demo.sampleUrls Demo.samplePage).1,
              (Demo.result Demo.sampleUrls Demo.samplePage).2) /\
  exists a ent,
    entityByUrl (Demo.result Demo.sampleUrls Demo.samplePage).1
      !! "chrome-extension://abc123/script.js" = Some (Made a) /\
    @deref (Demo.imports Demo.sampleUrls)
      (Demo.result Demo.sampleUrls Demo.samplePage).2 (Made a) = Some ent /\
    category ent = "Chrome Extension" /\ name ent = "My Ext".
Proof.
  assert (@compute_ (Demo.imports Demo.sampleUrls) Demo.samplePage
          = Normal ((Demo.result Demo.sampleUrls Demo.samplePage).1,
                    (Demo.result Demo.sampleUrls Demo.samplePage).2)) as C
    by evaluated.
  split; [exact C|].
  destruct (@extension_precedence (Demo.imports Demo.sampleUrls) _ _ _
              (Build_NetworkRecord <$> Demo.sampleUrls)
              [] (Demo.contextCreated "chrome-extension://abc123" "My Ext") []
              "chrome-extension://abc123"
              {| url := "chrome-extension://abc123/script.js" |} true C)
    as (a & p & ent & _ & E & D & Cat & Nm & _).
  - reflexivity.
  - reflexivity.
  - evaluated.
  - intros e He. destruct (proj1 (elem_of_nil e) He).
  - unfold Demo.sampleUrls. rewrite !fmap_cons.
    do 4 apply list_elem_of_further. apply list_elem_of_here.
  - evaluated.
  - exists a, ent. split; [exact E|]. split; [exact D|]. split; [exact Cat|exact Nm].
Defined.

(** C3, as stated, fails: the log has an event for the origin with the
    context name "My Ext (frame)", but the record is mapped to the entity
    of the first event for that origin, whose name is "My Ext". *)
Lemma later_context_name_is_not_used :
  @compute_ (Demo.imports Demo.extensionUrls) Demo.twoContexts
    = Normal (Demo.result Demo.extensionUrls Demo.twoContexts) /\
  devtoolsLog Demo.twoContexts !! 1
    = Some (Demo.contextCreated "chrome-extension://abc123" "My Ext (frame)") /\
  @extensionEventFor "chrome-extension://abc123"
    (Demo.contextCreated "chrome-extension://abc123" "My Ext (frame)") /\
  @thirdPartyWeb_getEntity (Demo.imports Demo.extensionUrls)
    "chrome-extension://abc123/script.js" = None /\
  @canonicalKey (Demo.imports Demo.extensionUrls)
    "chrome-extension://abc123/script.js"
    = Some ("chrome-extension://abc123", true) /\
  entityByUrl (Demo.result Demo.extensionUrls Demo.twoContexts).1
    !! "chrome-extension://abc123/script.js" = Some (Made 0) /\
  name <$> @deref (Demo.imports Demo.extensionUrls)
             (Demo.result Demo.extensionUrls Demo.twoContexts).2 (Made 0)
    = Some "My Ext" /\
  "My Ext" <> "My Ext (frame)".
Proof. evaluated. Qed.

Lemma firstParty_resolution_witness :
  @compute_ (Demo.imports Demo.googleUrls) Demo.otherPage
    = Normal ((Demo.result Demo.googleUrls Demo.otherPage).1,
              (Demo.result Demo.googleUrls Demo.otherPage).2) /\
  exists a,
    firstParty (Demo.result Demo.googleUrls Demo.otherPage).1 = Some (Made a) /\
    urlsByEntity (Demo.result Demo.googleUrls Demo.otherPage).1 !! Made a = None /\
    @deref (Demo.imports Demo.googleUrls)
      (Demo.result Demo.googleUrls Demo.otherPage).2 (Made a)
    = Some (placeholderEntity "other.com" false).
Proof.
  assert (@compute_ (Demo.imports Demo.googleUrls) Demo.otherPage
          = Normal ((Demo.result Demo.googleUrls Demo.otherPage).1,
                    (Demo.result Demo.googleUrls Demo.otherPage).2)) as C
    by evaluated.
  split; [exact C|].
  destruct (@firstParty_resolution (Demo.imports Demo.googleUrls) _ _ _ C)
    as (_ & _ & records & m0 & maps & m1 & N & _ & _ & _ & New).
  injection N as <-.
  destruct (New "other.com" false) as (_ & F & _ & D & U & _).
  - evaluated.
  - intros entry He. destruct (proj1 (elem_of_nil entry) He).
  - intros r b' In_ [G _]. vm_compute in In_.
    apply elem_of_cons in In_ as [->|In_]; [vm_compute in G; discriminate|].
    apply elem_of_cons in In_ as [->|In_]; [vm_compute in G; discriminate|].
    destruct (proj1 (elem_of_nil r) In_).
  - exists (length (objects m1)). split; [exact F|]. split; [exact U|exact D].
Defined.

Lemma invalid_url_omitted_witness :
  @compute_ (Demo.imports Demo.sampleUrls) Demo.samplePage
    = Normal ((Demo.result Demo.sampleUrls Demo.samplePage).1,
              (Demo.result Demo.sampleUrls Demo.samplePage).2) /\
  entityByUrl (Demo.result Demo.sampleUrls Demo.samplePage).1
    !! "data:text/plain,hi" = None.
Proof.
  assert (@compute_ (Demo.imports Demo.sampleUrls) Demo.samplePage
          = Normal ((Demo.result Demo.sampleUrls Demo.samplePage).1,
                    (Demo.result Demo.sampleUrls Demo.samplePage).2)) as C
    by evaluated.
  split; [exact C|].
  destruct (@invalid_url_omitted (Demo.imports Demo.sampleUrls)
              {| url := "data:text/plain,hi" |}) as (_ & _ & _ & Absent & _).
  - evaluated.
  - right. left. exists {| protocol := "data:"; host := "" |}. evaluated.
  - exact (proj1 (Absent _ _ _ C)).
Defined.

(** C6, as stated, fails: the URL has the scheme blob, which is neither http
    nor https nor the extension scheme, and yet it is in [entityByUrl] and
    in a set of [urlsByEntity], since the dataset, which is asked before the
    URL is looked at, matches it. *)
Lemma unsupported_scheme_is_classified :
  @URL_new (Demo.imports Demo.blobUrls) "blob:https://www.youtube.com/0a1b"
    = Some {| protocol := "blob:"; host := "" |} /\
  "blob:" <> "http:" /\ "blob:" <> "https:" /\ "blob:" <> "chrome-extension:" /\
  String.prefix "http" "blob:" = false /\
  @compute_ (Demo.imports Demo.blobUrls) Demo.samplePage
    = Normal (Demo.result Demo.blobUrls Demo.samplePage) /\
  entityByUrl (Demo.result Demo.blobUrls Demo.samplePage).1
    !! "blob:https://www.youtube.com/0a1b" = Some (Known 2) /\
  elements <$> urlsByEntity (Demo.result Demo.blobUrls Demo.samplePage).1 !! Known 2
    = Some ["blob:https://www.youtube.com/0a1b"].
Proof. evaluated. Qed.

Lemma isUnrecognized_only_placeholders_witness :
  @compute_ (Demo.imports Demo.sampleUrls) Demo.samplePage
    = Normal ((Demo.result Demo.sampleUrls Demo.samplePage).1,
              (Demo.result Demo.sampleUrls Demo.samplePage).2) /\
  @deref (Demo.imports Demo.sampleUrls)
    (Demo.result Demo.sampleUrls Demo.samplePage).2 (Made 1)
    = Some (placeholderEntity "example.com" false) /\
  exists u key b,
    @unmatchedKey (Demo.imports Demo.sampleUrls) u key b /\
    placeholderEntity "example.com" false = placeholderEntity key b.
Proof.
  assert (@compute_ (Demo.imports Demo.sampleUrls) Demo.samplePage
          = Normal ((Demo.result Demo.sampleUrls Demo.samplePage).1,
                    (Demo.result Demo.sampleUrls Demo.samplePage).2)) as C
    by evaluated.
  assert (@deref (Demo.imports Demo.sampleUrls)
            (Demo.result Demo.sampleUrls Demo.samplePage).2 (Made 1)
          = Some (placeholderEntity "example.com" false)) as D by evaluated.
  split; [exact C|]. split; [exact D|].
  assert (forall i, isUnrecognized (Demo.entities i) <> Some true) as Dataset
    by (intros [|[|i]]; discriminate).
  assert (reachable (Demo.result Demo.sampleUrls Demo.samplePage).1 (Made 1)) as Reach
    by (left; exists "https://sub.example.com/a"; evaluated).
  destruct (@isUnrecognized_only_placeholders (Demo.imports Demo.sampleUrls)
              Demo.samplePage _ _ (Made 1) _ Dataset C Reach D eq_refl)
    as (records & m0 & a & u & key & b & _ & _ & _ & _ & _ & _ & _ & K & E & _).
  exists u, key, b. split; [exact K|exact E].
Defined.

(** C8, as stated, fails: the entity of this extension URL, which the log
    has no event for, is made by [makeUpAnEntity] under the extension origin,
    with no domain, and has [isUnrecognized] true. *)
Lemma extension_entity_is_unrecognized :
  @compute_ (Demo.imports Demo.extensionUrls) Demo.blankPage
    = Normal (Demo.result Demo.extensionUrls Demo.blankPage) /\
  protocol <$> @URL_new (Demo.imports Demo.extensionUrls)
                 "chrome-extension://abc123/script.js"
    = Some "chrome-extension:" /\
  @canonicalKey (Demo.imports Demo.extensionUrls)
    "chrome-extension://abc123/script.js"
    = Some ("chrome-extension://abc123", true) /\
  entityByUrl (Demo.result Demo.extensionUrls Demo.blankPage).1
    !! "chrome-extension://abc123/script.js" = Some (Made 0) /\
  @deref (Demo.imports Demo.extensionUrls)
    (Demo.result Demo.extensionUrls Demo.blankPage).2 (Made 0)
    = Some (placeholderEntity "chrome-extension://abc123" true) /\
  domains (placeholderEntity "chrome-extension://abc123" true) = [] /\
  isUnrecognized (placeholderEntity "chrome-extension://abc123" true) = Some true.
Proof. evaluated. Qed.

Lemma single_flight_witness :
  ComputedArtifact.invocations ("EntityClassification", 1)
    (ComputedArtifact.run (Result := nat) (fst : nat * nat -> nat)
       [ComputedArtifact.Request "EntityClassification" (1, 0);
        ComputedArtifact.Request "NetworkRecords" (1, 0);
        ComputedArtifact.Request "EntityClassification" (1, 7);
        ComputedArtifact.Settle 0 (ComputedArtifact.Failed "rejected");
        ComputedArtifact.Request "EntityClassification" (1, 9)]
       ComputedArtifact.newContext).2 = 1.
Proof.
  refine (proj1 (@single_flight (nat * nat) nat nat _ _ fst _
                   "EntityClassification" (1, 0) _)).
  apply list_elem_of_here.
Defined.

(** * Further properties of the classification *)

Section CacheShape.
Context `{Imports}.

Lemma CacheOK_empty : CacheOK emptyMem.
Proof.
  split; simpl.
  - intros k r. by rewrite lookup_empty.
  - intros k1 k2 r. by rewrite lookup_empty.
  - by rewrite map_size_empty.
Qed.

(** A new object under a new key keeps the shape. *)
Lemma CacheOK_alloc m k e :
  CacheOK m -> entityCache m !! k = None ->
  CacheOK {| objects := objects m ++ [e];
             entityCache := <[k := Made (length (objects m))]> (entityCache m) |}.
Proof.
  intros [W I S] Free. split; simpl.
  - intros k' r. rewrite lookup_insert. case_decide.
    + intros [= <-]. eexists. split; [done|]. rewrite length_app. simpl. lia.
    + intros Hr. destruct (W k' r Hr) as (a & -> & ?).
      exists a. split; [done|]. rewrite length_app. lia.
  - intros k1 k2 r. rewrite !lookup_insert.
    destruct (decide (k = k1)) as [<-|D1], (decide (k = k2)) as [<-|D2]; try done.
    + intros [= <-] Hr. destruct (W k2 _ Hr) as (a & [= <-] & ?). lia.
    + intros Hr [= <-]. destruct (W k1 _ Hr) as (a & [= <-] & ?). lia.
    + apply I.
  - rewrite map_size_insert_None by done. rewrite length_app, S. simpl. lia.
Qed.

Lemma preloadEntry_ok entry m m' :
  CacheOK m -> preloadEntry entry m = Normal (tt, m') -> CacheOK m'.
Proof.
  intros Ok E. rewrite preloadEntry_eq in E.
  destruct (_ && _); [|by injection E as <-].
  destruct (entityCache m !! _) as [r|] eqn:C; [by injection E as <-|].
  destruct (URL_new _) as [p|]; [|done]. injection E as <-.
  by apply CacheOK_alloc.
Qed.

Lemma preload_ok log : forall m m',
  CacheOK m -> preloadChromeExtensionsToCache_ log m = Normal (tt, m') -> CacheOK m'.
Proof.
  induction log as [|entry rest IH]; intros m m' Ok E; simpl in E.
  - by injection E as <-.
  - unfold bind in E. destruct (preloadEntry entry m) as [[[] m1]|] eqn:E1; [|done].
    eapply IH; [|exact E]. by eapply preloadEntry_ok.
Qed.

Lemma resolution_ok m u eo m' : resolution m u eo m' -> CacheOK m -> CacheOK m'.
Proof. destruct 1; try done. intros Ok. by apply CacheOK_alloc. Qed.

Lemma classifyRecordsIn_ok records : forall maps m,
  CacheOK m -> CacheOK (classifyRecordsIn maps m records).2.
Proof.
  induction records as [|r rest IH]; intros maps m Ok; simpl; [done|].
  assert (CacheOK (classifyRecordIn maps m r).2) as Ok'.
  { unfold classifyRecordIn. destruct (maps.1 !! url r); [done|].
    pose proof (resolution_ok _ _ _ _ (resolveIn_resolution m (url r)) Ok).
    by destruct (resolveIn m (url r)) as [[e|] m']. }
  destruct (classifyRecordIn maps m r) as [maps' m']. by apply IH.
Qed.

Lemma computes_ok data records m0 m1 c m :
  computes data records m0 m1 c m -> CacheOK m0 /\ CacheOK m.
Proof.
  intros C. pose proof C as (_ & P & L & _).
  destruct (computes_inv _ _ _ _ _ _ C) as (_ & _ & R & _).
  pose proof (preload_ok _ _ _ CacheOK_empty P) as Ok0. split; [done|].
  eapply resolution_ok; [exact R|]. rewrite classifyRecords_eq in L.
  injection L as L. pose proof (classifyRecordsIn_ok records (∅, ∅) m0 Ok0) as Ok1.
  by rewrite L in Ok1.
Qed.

(** The entry of a record URL that the reference does not match: the cache
    entry of its key, which exists. *)
Lemma unmatched_entry data records m0 m1 c m u k b :
  computes data records m0 m1 c m ->
  u ∈ url <$> records -> unmatchedKey u k b ->
  entityByUrl c !! u = entityCache m !! k /\ is_Some (entityCache m !! k).
Proof.
  intros C In_ [G K]. rewrite (entityByUrl_lookup _ _ _ _ _ _ u C).
  rewrite bool_decide_eq_true_2 by done. unfold lookupEntity. rewrite G, K.
  split; [done|].
  destruct (computes_inv _ _ _ _ _ _ C) as (_ & _ & _ & I & _).
  apply (inv_seen_cached _ _ _ I u k b); [|by split].
  apply elem_of_union. right. by apply elem_of_list_to_set.
Qed.

(** The first party of a page whose URL the reference does not match: the
    cache entry of its key, which exists. *)
Lemma unmatched_firstParty data records m0 m1 c m k b :
  computes data records m0 m1 c m ->
  unmatchedKey (firstPartyUrlOf (data_URL data)) k b ->
  firstParty c = entityCache m !! k /\ is_Some (entityCache m !! k).
Proof.
  intros C [G K]. destruct (computes_inv _ _ _ _ _ _ C) as (_ & _ & R & I & _).
  rewrite <- (resolution_lookup _ _ _ _ R). unfold lookupEntity. rewrite G, K.
  split; [done|].
  apply (inv_seen_cached _ _ _ I (firstPartyUrlOf (data_URL data)) k b); [|by split].
  apply elem_of_union. left. by apply elem_of_singleton.
Qed.

End CacheShape.

Section Further.
Context `{Imports}.

(** X1: a URL is in [entityByUrl] exactly when a record carried it and the
    reference matches it or it has a canonical key. *)
Theorem entityByUrl_domain data c m records u :
  compute_ data = Normal (c, m) ->
  NetworkRecords_request (devtoolsLog data) = Normal records ->
  is_Some (entityByUrl c !! u) <->
  u ∈ url <$> records /\
  (is_Some (thirdPartyWeb_getEntity u) \/ is_Some (canonicalKey u)).
Proof.
  intros C N. apply compute_computes in C as (records' & m0 & m1 & C).
  assert (records' = records) as -> by (destruct C as [N' _]; congruence).
  rewrite (entityByUrl_lookup _ _ _ _ _ _ u C). case_bool_decide as In_.
  - destruct (thirdPartyWeb_getEntity u) as [i|] eqn:G.
    + unfold lookupEntity. rewrite G. split; [by eauto|by eauto].
    + destruct (canonicalKey u) as [[k b]|] eqn:K.
      * destruct (unmatched_entry _ _ _ _ _ _ u k b C In_) as [_ S]; [by split|].
        unfold lookupEntity. rewrite G, K. split; [by eauto|done].
      * unfold lookupEntity. rewrite G, K. split; [by intros [? ?]|].
        intros [_ [[? ?]|[? ?]]]; done.
  - split; [by intros [? ?]|]. by intros [? _].
Qed.

(** X2: the reference comes first: a record URL that it matches is mapped to
    the dataset's own entity, and so is the first party of a page whose URL
    it matches, whatever the cache holds. *)
Theorem dataset_entity_first data c m records :
  compute_ data = Normal (c, m) ->
  NetworkRecords_request (devtoolsLog data) = Normal records ->
  (forall u i, u ∈ url <$> records -> thirdPartyWeb_getEntity u = Some i ->
     entityByUrl c !! u = Some (Known i)) /\
  (forall i, thirdPartyWeb_getEntity (firstPartyUrlOf (data_URL data)) = Some i ->
     firstParty c = Some (Known i)).
Proof.
  intros C N. apply compute_computes in C as (records' & m0 & m1 & C).
  assert (records' = records) as -> by (destruct C as [N' _]; congruence).
  split.
  - intros u i In_ G. rewrite (entityByUrl_lookup _ _ _ _ _ _ u C).
    rewrite bool_decide_eq_true_2 by done. unfold lookupEntity. by rewrite G.
  - intros i G. destruct (computes_inv _ _ _ _ _ _ C) as (_ & _ & R & _).
    rewrite <- (resolution_lookup _ _ _ _ R). unfold lookupEntity. by rewrite G.
Qed.

(** X3: two classified URLs that the reference does not match have the same
    entity exactly when they have the same canonical key: different keys
    never share an entity. *)
Theorem same_entity_iff_same_key data c m u1 u2 e1 e2 k1 k2 b1 b2 :
  compute_ data = Normal (c, m) ->
  entityByUrl c !! u1 = Some e1 ->
  entityByUrl c !! u2 = Some e2 ->
  unmatchedKey u1 k1 b1 ->
  unmatchedKey u2 k2 b2 ->
  e1 = e2 <-> k1 = k2.
Proof.
  intros C E1 E2 [G1 K1] [G2 K2].
  apply compute_computes in C as (records & m0 & m1 & C).
  destruct (computes_ok _ _ _ _ _ _ C) as [_ Ok].
  rewrite (entityByUrl_lookup _ _ _ _ _ _ u1 C) in E1.
  rewrite (entityByUrl_lookup _ _ _ _ _ _ u2 C) in E2.
  case_bool_decide; [|done]. case_bool_decide; [|done].
  unfold lookupEntity in E1, E2. rewrite G1, K1 in E1. rewrite G2, K2 in E2.
  split.
  - intros <-. by eapply ok_inj.
  - intros <-. congruence.
Qed.

(** X4: [isFirstParty] on a record URL: when the reference matches neither
    the URL nor the page, it tells whether the two have the same canonical
    key; when it matches both, whether it gives them the same entity; and
    when it matches one of the two only, the answer is no. *)
Theorem isFirstParty_decides data c m records u :
  compute_ data = Normal (c, m) ->
  NetworkRecords_request (devtoolsLog data) = Normal records ->
  u ∈ url <$> records ->
  let fp := firstPartyUrlOf (data_URL data) in
  (forall ku bu kf bf, unmatchedKey u ku bu -> unmatchedKey fp kf bf ->
     isFirstParty c u = bool_decide (ku = kf)) /\
  (forall i j, thirdPartyWeb_getEntity u = Some i ->
     thirdPartyWeb_getEntity fp = Some j ->
     isFirstParty c u = bool_decide (i = j)) /\
  (forall i kf bf, thirdPartyWeb_getEntity u = Some i -> unmatchedKey fp kf bf ->
     isFirstParty c u = false) /\
  (forall ku bu j, unmatchedKey u ku bu -> thirdPartyWeb_getEntity fp = Some j ->
     isFirstParty c u = false).
Proof.
  intros C N In_ fp. pose proof C as C0.
  apply compute_computes in C as (records' & m0 & m1 & C).
  assert (records' = records) as -> by (destruct C as [N' _]; congruence).
  destruct (computes_ok _ _ _ _ _ _ C) as [_ Ok].
  assert (forall i, thirdPartyWeb_getEntity u = Some i ->
            entityByUrl c !! u = Some (Known i)) as UK.
  { intros i G. rewrite (entityByUrl_lookup _ _ _ _ _ _ u C).
    rewrite bool_decide_eq_true_2 by done. unfold lookupEntity. by rewrite G. }
  assert (forall j, thirdPartyWeb_getEntity fp = Some j ->
            firstParty c = Some (Known j)) as FK.
  { intros j G. destruct (computes_inv _ _ _ _ _ _ C) as (_ & _ & R & _).
    rewrite <- (resolution_lookup _ _ _ _ R). unfold lookupEntity.
    fold fp. by rewrite G. }
  unfold isFirstParty. split; [|split; [|split]].
  - intros ku bu kf bf Ku Kf.
    destruct (unmatched_entry _ _ _ _ _ _ u ku bu C In_ Ku) as [-> [ru Ru]].
    destruct (unmatched_firstParty _ _ _ _ _ _ kf bf C Kf) as [-> [rf Rf]].
    rewrite Ru, Rf. apply bool_decide_ext. split.
    + intros [= ->]. by eapply ok_inj.
    + intros ->. congruence.
  - intros i j Gu Gf. rewrite (UK i Gu), (FK j Gf).
    apply bool_decide_ext. split; [by intros [= ->]|by intros ->].
  - intros i kf bf Gu Kf. rewrite (UK i Gu).
    destruct (unmatched_firstParty _ _ _ _ _ _ kf bf C Kf) as [-> [rf Rf]].
    rewrite Rf. apply bool_decide_eq_false_2. intros [= <-].
    by destruct (ok_wf _ Ok kf _ Rf) as (a & ? & _).
  - intros ku bu j Ku Gf. rewrite (FK j Gf).
    destruct (unmatched_entry _ _ _ _ _ _ u ku bu C In_ Ku) as [-> [ru Ru]].
    rewrite Ru. apply bool_decide_eq_false_2. intros [= ->].
    by destruct (ok_wf _ Ok ku _ Ru) as (a & ? & _).
Qed.

(** X5: every entity object that a call makes has the three counters at
    zero and no categories, and is of one of two shapes: an extension entity
    (category "Chrome Extension", a homepage, no domain, no [isUnrecognized])
    or a placeholder (no category, no homepage, name and company equal,
    [isUnrecognized] true). *)
Theorem made_entities_shape data c m a ent :
  compute_ data = Normal (c, m) ->
  objects m !! a = Some ent ->
  averageExecutionTime ent = 0%Z /\ totalExecutionTime ent = 0%Z /\
  totalOccurrences ent = 0%Z /\ categories ent = [] /\
  ((category ent = "Chrome Extension" /\ is_Some (homepage ent) /\
    domains ent = [] /\ isUnrecognized ent = None /\ name ent = company ent) \/
   (category ent = "" /\ homepage ent = None /\
    isUnrecognized ent = Some true /\ name ent = company ent /\
    (domains ent = [] \/ domains ent = [name ent]))).
Proof.
  intros C D. apply compute_computes in C as (records & m0 & m1 & C).
  destruct (computes_inv _ _ _ _ _ _ C) as (I0 & _ & _ & I & _).
  destruct (decide (a < length (objects m0))) as [Old|New].
  - destruct (lookup_lt_is_Some_2 _ _ Old) as [ent0 E0].
    rewrite (extends_lookup _ _ _ _ (inv_extends _ _ _ I) E0) in D.
    injection D as <-. destruct (pre_objects _ _ I0 a ent0 E0) as (n & h & ->).
    simpl. repeat (split; [done|]). left. by eauto.
  - destruct (inv_object_prov _ _ _ I a ent ltac:(lia) D) as (u & k & b & _ & _ & -> & _).
    simpl. repeat (split; [done|]). right. repeat (split; [done|]).
    destruct b; by eauto.
Qed.

(** X6: every entity that a result hands out can be read: a dataset entity,
    or an object that the final memory holds. *)
Theorem reachable_deref data c m r :
  compute_ data = Normal (c, m) -> reachable c r -> is_Some (deref m r).
Proof.
  intros C Reach. apply compute_computes in C as (records & m0 & m1 & C).
  destruct (reachable_wf _ _ _ _ _ _ r C Reach) as [[i ->]|(a & -> & Ha)].
  - simpl. by eauto.
  - simpl. by apply lookup_lt_is_Some_2.
Qed.

(** X7: in [urlsByEntity], the sets of two different entities have no URL
    in common. *)
Theorem urlsByEntity_disjoint data c m e1 e2 s1 s2 :
  compute_ data = Normal (c, m) ->
  urlsByEntity c !! e1 = Some s1 ->
  urlsByEntity c !! e2 = Some s2 ->
  e1 <> e2 ->
  s1 ## s2.
Proof.
  intros C S1 S2 Ne. apply compute_computes in C as (records & m0 & m1 & C).
  destruct (computes_inv _ _ _ _ _ _ C) as (_ & _ & _ & _ & _ & J).
  apply elem_of_disjoint. intros u U1 U2.
  assert (entityByUrl c !! u = Some e1) as E1 by (apply (inv_inverse _ _ _ J); eauto).
  assert (entityByUrl c !! u = Some e2) as E2 by (apply (inv_inverse _ _ _ J); eauto).
  congruence.
Qed.

(** X8: the preload of a log that ends normally leaves one entity per
    extension origin: an origin is a key of the cache exactly when the log
    has an execution-context event for it, no two origins share an entity,
    and there are as many entities as origins. *)
Theorem preload_one_entity_per_origin log m0 :
  preloadChromeExtensionsToCache_ log emptyMem = Normal (tt, m0) ->
  (forall o, is_Some (entityCache m0 !! o) <->
             exists entry, entry ∈ log /\ extensionEventFor o entry) /\
  (forall o1 o2 r, entityCache m0 !! o1 = Some r -> entityCache m0 !! o2 = Some r ->
                   o1 = o2) /\
  size (entityCache m0) = length (objects m0).
Proof.
  intros P. pose proof (preload_ok _ _ _ CacheOK_empty P) as [W I S].
  destruct (preload_inv _ _ _ _ PreInv_empty P) as [I0 _]. simpl in I0.
  split; [|by split].
  intros o. split.
  - intros [r Hr]. by eapply pre_keys.
  - intros (entry & In_ & Ev).
    destruct (first_event o _ entry In_ Ev) as (l1 & entry' & l2 & -> & Ev' & First).
    destruct (preload_first _ _ _ _ _ Ev' First P) as (a & p & _ & Hc & _).
    by eauto.
Qed.

(** X9: asking [makeUpAnEntity] again, for the same URL or for any URL with
    the same canonical key, gives the entity of the first call and changes
    nothing. *)
Theorem makeUpAnEntity_again url url' m r m' :
  makeUpAnEntity url m = Normal (Some r, m') ->
  canonicalKey url' = canonicalKey url ->
  makeUpAnEntity url' m' = Normal (Some r, m').
Proof.
  intros E Same. rewrite makeUpAnEntity_eq in E. rewrite makeUpAnEntity_eq, Same.
  destruct (canonicalKey url) as [[k b]|]; [|done].
  destruct (entityCache m !! k) as [r0|] eqn:C.
  - injection E as <- <-. by rewrite C.
  - injection E as <- <-. simpl. by rewrite lookup_insert_eq.
Qed.

End Further.

Section Failure.
Context `{Imports}.

Lemma not_acting entry :
  String.eqb (Protocol.method entry) "Runtime.executionContextCreated"
  && String.prefix "chrome-extension:"
       (Protocol.origin (Protocol.context (Protocol.params entry))) = false ->
  forall o, ~ extensionEventFor o entry.
Proof.
  intros A o (M & O & P). subst o. apply String.eqb_eq in M.
  rewrite M, P in A. done.
Qed.

(** The preload throws exactly on a log with an extension event whose origin
    the [URL] constructor does not accept. *)
Lemma preload_throws log : forall m,
  keysParse m ->
  (exists e, preloadChromeExtensionsToCache_ log m = Throw e) <->
  (exists entry o, entry ∈ log /\ extensionEventFor o entry /\ URL_new o = None).
Proof.
  induction log as [|entry rest IH]; intros m Keys.
  - simpl. split; [by intros [? ?]|].
    intros (entry & o & In_ & _). by apply elem_of_nil in In_.
  - assert (forall m1, preloadEntry entry m = Normal (tt, m1) -> keysParse m1 ->
              (forall o, extensionEventFor o entry -> is_Some (URL_new o)) ->
              (exists e, preloadChromeExtensionsToCache_ (entry :: rest) m = Throw e) <->
              (exists entry' o, entry' ∈ entry :: rest /\ extensionEventFor o entry' /\
                                URL_new o = None)) as Step.
    { intros m1 E1 Keys1 Fine. cbn [preloadChromeExtensionsToCache_]. unfold bind.
      rewrite E1, (IH m1 Keys1). split.
      - intros (e' & o & In_ & ?). exists e', o. split; [|done].
        apply elem_of_cons. by right.
      - intros (e' & o & [->|In_]%elem_of_cons & Ev & Bad).
        + destruct (Fine o Ev) as [p Hp]. congruence.
        + by exists e', o. }
    pose proof (preloadEntry_eq entry m) as E. cbv zeta in E.
    destruct (_ && _) eqn:A.
    + apply extensionEventFor_dec in A.
      set (o0 := Protocol.origin (Protocol.context (Protocol.params entry))) in *.
      assert (forall o, extensionEventFor o entry -> o = o0) as Only
        by (by intros o (_ & <- & _)).
      destruct (entityCache m !! o0) as [r|] eqn:C.
      * apply (Step m E Keys). intros o Ev. rewrite (Only o Ev).
        apply Keys. by eauto.
      * destruct (URL_new o0) as [p|] eqn:U.
        -- apply (Step _ E).
           ++ intros k. simpl. rewrite lookup_insert. case_decide; [subst; by eauto|].
              apply Keys.
           ++ intros o Ev. rewrite (Only o Ev). by eauto.
        -- cbn [preloadChromeExtensionsToCache_]. unfold bind. rewrite E.
           split; [|by eauto]. intros _. exists entry, o0.
           split; [apply list_elem_of_here|done].
    + apply (Step m E Keys). intros o Ev. by destruct (not_acting entry A o).
Qed.

(** X10: [compute_] returns a result exactly when the provider of the
    records does and the [URL] constructor accepts the origin of every
    extension event of the log; an error of the provider is the error of
    [compute_]. *)
Theorem compute_returns_iff data :
  ((exists c m, compute_ data = Normal (c, m)) <->
   (exists records, NetworkRecords_request (devtoolsLog data) = Normal records) /\
   (forall entry o, entry ∈ devtoolsLog data -> extensionEventFor o entry ->
      is_Some (URL_new o))) /\
  (forall e, NetworkRecords_request (devtoolsLog data) = Throw e ->
     compute_ data = Throw e).
Proof.
  assert (keysParse emptyMem) as Keys0.
  { intros k [r Hr]. simpl in Hr. by rewrite lookup_empty in Hr. }
  pose proof (preload_throws (devtoolsLog data) emptyMem Keys0) as T.
  unfold compute_, classify, bind. split.
  - destruct (NetworkRecords_request (devtoolsLog data)) as [records|e].
    + destruct (preloadChromeExtensionsToCache_ _ emptyMem) as [[[] m0]|e] eqn:P.
      * rewrite classifyRecords_eq.
        destruct (classifyRecordsIn (∅, ∅) m0 records) as [maps m1].
        rewrite resolve_eq. destruct (resolveIn m1 _) as [fp m2]. split.
        -- intros _. split; [by eauto|]. intros entry o In_ Ev.
           destruct (URL_new o) eqn:U; [by eauto|].
           destruct (proj2 T) as [e ?]; [by eauto|done].
        -- intros _. by eauto.
      * split; [by intros (? & ? & ?)|]. intros [_ Fine].
        destruct (proj1 T) as (entry & o & In_ & Ev & Bad); [by eauto|].
        destruct (Fine entry o In_ Ev) as [p Hp]. congruence.
    + split; [by intros (? & ? & ?)|]. by intros [[? ?] _].
  - by intros e ->.
Qed.

End Failure.

Section Duplicates.
Context `{Imports}.

Lemma firstOccurrencesFrom_urls records : forall seen u,
  u ∈ url <$> firstOccurrencesFrom seen records <->
  u ∈ url <$> records /\ u ∉ seen.
Proof.
  induction records as [|r rest IH]; intros seen u.
  - simpl. split; [by intros ?%elem_of_nil|by intros [?%elem_of_nil _]].
  - cbn [firstOccurrencesFrom]. case_bool_decide as S.
    + rewrite IH, fmap_cons, elem_of_cons. split; [tauto|].
      intros [[->|?] ?]; done.
    + rewrite !fmap_cons, !elem_of_cons, IH, elem_of_cons. split.
      * intros [->|[? ?]]; [tauto|]. split; [tauto|]. tauto.
      * intros [[->|?] ?]; [tauto|]. destruct (decide (u = url r)); tauto.
Qed.

Lemma firstOccurrencesFrom_NoDup records : forall seen,
  NoDup (url <$> firstOccurrencesFrom seen records).
Proof.
  induction records as [|r rest IH]; intros seen; [constructor|].
  cbn [firstOccurrencesFrom]. case_bool_decide as S; [apply IH|].
  rewrite fmap_cons. constructor; [|apply IH].
  rewrite firstOccurrencesFrom_urls, elem_of_cons. tauto.
Qed.

Lemma classifyRecordsIn_firstOccurrences l2 : forall l1 seen maps m,
  (forall u, u ∈ seen <-> u ∈ url <$> l1) ->
  classifyRecordsIn maps m (l1 ++ l2)
  = classifyRecordsIn maps m (l1 ++ firstOccurrencesFrom seen l2).
Proof.
  induction l2 as [|r rest IH]; intros l1 seen maps m Seen; [done|].
  cbn [firstOccurrencesFrom]. case_bool_decide as S.
  - rewrite <- (IH l1 seen maps m Seen). rewrite !classifyRecordsIn_app.
    cbn [classifyRecordsIn]. rewrite classifyRecordIn_again by (by apply Seen).
    by destruct (classifyRecordsIn maps m l1).
  - rewrite (cons_middle r l1 rest), (cons_middle r l1 (firstOccurrencesFrom _ _)).
    rewrite !app_assoc. apply IH. intros u.
    rewrite fmap_app, elem_of_app, elem_of_cons, Seen. simpl.
    rewrite list_elem_of_singleton. tauto.
Qed.

(** X11: the loop over the records ends as it does on the list of the first
    occurrences, in which every URL of a record occurs once. *)
Theorem records_first_occurrences maps m records :
  classifyRecords maps records m
  = classifyRecords maps (firstOccurrencesFrom [] records) m /\
  NoDup (url <$> firstOccurrencesFrom [] records) /\
  (forall u, u ∈ url <$> firstOccurrencesFrom [] records <-> u ∈ url <$> records).
Proof.
  split; [|split].
  - rewrite !classifyRecords_eq. f_equal.
    apply (classifyRecordsIn_firstOccurrences records [] [] maps m).
    intros u. simpl. done.
  - apply firstOccurrencesFrom_NoDup.
  - intros u. rewrite firstOccurrencesFrom_urls. split; [tauto|].
    intros ?. split; [done|]. by intros ?%elem_of_nil.
Qed.

End Duplicates.


(** * The further properties at concrete inputs *)

Ltac listed :=
  vm_compute; repeat first [apply list_elem_of_here | apply list_elem_of_further].

Lemma entityByUrl_domain_witness :
  is_Some (entityByUrl (Demo.result Demo.sampleUrls Demo.samplePage).1
             !! "https://cdn.other.com/lib.js").
Proof.
  assert (@compute_ (Demo.imports Demo.sampleUrls) Demo.samplePage
          = Normal ((Demo.result Demo.sampleUrls Demo.samplePage).1,
                    (Demo.result Demo.sampleUrls Demo.samplePage).2)) as C
    by evaluated.
  apply (@entityByUrl_domain (Demo.imports Demo.sampleUrls) _ _ _
           (Build_NetworkRecord <$> Demo.sampleUrls) _ C eq_refl).
  split; [listed|]. right. exists ("other.com", false). evaluated.
Defined.

Lemma dataset_entity_first_witness :
  entityByUrl (Demo.result Demo.googleUrls Demo.samplePage).1
    !! "https://fonts.googleapis.com/css" = Some (Known 0).
Proof.
  assert (@compute_ (Demo.imports Demo.googleUrls) Demo.samplePage
          = Normal ((Demo.result Demo.googleUrls Demo.samplePage).1,
                    (Demo.result Demo.googleUrls Demo.samplePage).2)) as C
    by evaluated.
  apply (proj1 (@dataset_entity_first (Demo.imports Demo.googleUrls) _ _ _
                  (Build_NetworkRecord <$> Demo.googleUrls) C eq_refl)).
  - listed.
  - evaluated.
Defined.

Lemma same_entity_iff_same_key_witness :
  Made 1 = Made 2 <-> "example.com" = "other.com".
Proof.
  assert (@compute_ (Demo.imports Demo.sampleUrls) Demo.samplePage
          = Normal ((Demo.result Demo.sampleUrls Demo.samplePage).1,
                    (Demo.result Demo.sampleUrls Demo.samplePage).2)) as C
    by evaluated.
  apply (@same_entity_iff_same_key (Demo.imports Demo.sampleUrls) _ _ _
           "https://sub.example.com/a" "https://cdn.other.com/lib.js"
           (Made 1) (Made 2) "example.com" "other.com" false false C);
    evaluated.
Defined.

Lemma isFirstParty_decides_witness :
  isFirstParty (Demo.result Demo.sampleUrls Demo.samplePage).1
    "https://sub.example.com/a" = true /\
  isFirstParty (Demo.result Demo.sampleUrls Demo.samplePage).1
    "https://cdn.other.com/lib.js" = false.
Proof.
  assert (@compute_ (Demo.imports Demo.sampleUrls) Demo.samplePage
          = Normal ((Demo.result Demo.sampleUrls Demo.samplePage).1,
                    (Demo.result Demo.sampleUrls Demo.samplePage).2)) as C
    by evaluated.
  split.
  - rewrite (proj1 (@isFirstParty_decides (Demo.imports Demo.sampleUrls) _ _ _
                      (Build_NetworkRecord <$> Demo.sampleUrls)
                      "https://sub.example.com/a" C eq_refl ltac:(listed))
               "example.com" false "example.com" false); evaluated.
  - rewrite (proj1 (@isFirstParty_decides (Demo.imports Demo.sampleUrls) _ _ _
                      (Build_NetworkRecord <$> Demo.sampleUrls)
                      "https://cdn.other.com/lib.js" C eq_refl ltac:(listed))
               "other.com" false "example.com" false); evaluated.
Defined.

Lemma made_entities_shape_witness :
  objects (Demo.result Demo.sampleUrls Demo.samplePage).2 !! 1
    = Some (placeholderEntity "example.com" false) /\
  totalOccurrences (placeholderEntity "example.com" false) = 0%Z.
Proof.
  assert (@compute_ (Demo.imports Demo.sampleUrls) Demo.samplePage
          = Normal ((Demo.result Demo.sampleUrls Demo.samplePage).1,
                    (Demo.result Demo.sampleUrls Demo.samplePage).2)) as C
    by evaluated.
  assert (objects (Demo.result Demo.sampleUrls Demo.samplePage).2 !! 1
          = Some (placeholderEntity "example.com" false)) as D by evaluated.
  split; [exact D|].
  exact (proj1 (proj2 (proj2 (@made_entities_shape (Demo.imports Demo.sampleUrls)
                                _ _ _ _ _ C D)))).
Defined.

Lemma reachable_deref_witness :
  is_Some (@deref (Demo.imports Demo.sampleUrls)
             (Demo.result Demo.sampleUrls Demo.samplePage).2 (Made 2)).
Proof.
  assert (@compute_ (Demo.imports Demo.sampleUrls) Demo.samplePage
          = Normal ((Demo.result Demo.sampleUrls Demo.samplePage).1,
                    (Demo.result Demo.sampleUrls Demo.samplePage).2)) as C
    by evaluated.
  apply (@reachable_deref (Demo.imports Demo.sampleUrls) _ _ _ _ C).
  left. exists "https://cdn.other.com/lib.js". evaluated.
Defined.

Lemma urlsByEntity_disjoint_witness :
  default ∅ (urlsByEntity (Demo.result Demo.sampleUrls Demo.samplePage).1 !! Made 1)
  ## default ∅ (urlsByEntity (Demo.result Demo.sampleUrls Demo.samplePage).1 !! Made 2).
Proof.
  assert (@compute_ (Demo.imports Demo.sampleUrls) Demo.samplePage
          = Normal ((Demo.result Demo.sampleUrls Demo.samplePage).1,
                    (Demo.result Demo.sampleUrls Demo.samplePage).2)) as C
    by evaluated.
  apply (@urlsByEntity_disjoint (Demo.imports Demo.sampleUrls) _ _ _
           (Made 1) (Made 2) _ _ C); evaluated.
Defined.

Lemma preload_one_entity_per_origin_witness :
  size (entityCache (Demo.preloaded [] (devtoolsLog Demo.twoContexts)))
  = length (objects (Demo.preloaded [] (devtoolsLog Demo.twoContexts))).
Proof.
  assert (@preloadChromeExtensionsToCache_ (Demo.imports [])
            (devtoolsLog Demo.twoContexts) emptyMem
          = Normal (tt, Demo.preloaded [] (devtoolsLog Demo.twoContexts))) as P
    by evaluated.
  exact (proj2 (proj2 (@preload_one_entity_per_origin (Demo.imports []) _ _ P))).
Defined.

Lemma makeUpAnEntity_again_witness :
  @makeUpAnEntity (Demo.imports []) "https://other.example.com/b" Demo.oneExample
  = Normal (Some (Made 0), Demo.oneExample).
Proof.
  apply (@makeUpAnEntity_again (Demo.imports []) "https://sub.example.com/a"
           "https://other.example.com/b" emptyMem); evaluated.
Defined.

(** * The link-text audit *)

Section LanguageTags.
Import LinkText.
Import Stdlib.Strings.Ascii.

Lemma append_String (p : string) (c : ascii) (r x : string) :
  (p ++ String c r) ++ x = p ++ String c (r ++ x).
Proof.
  induction p as [|a p IH]; [done|].
  change (String a ((p ++ String c r) ++ x) = String a (p ++ String c (r ++ x))).
  by rewrite IH.
Qed.

Lemma lastIndexOf_bounds c s :
  (-1 <= lastIndexOf c s < Z.of_nat (String.length s))%Z.
Proof.
  induction s as [|a rest IH]; simpl; [lia|].
  destruct (Z.leb_spec 0 (lastIndexOf c rest)); [lia|].
  destruct (Ascii.eqb a c); lia.
Qed.

Lemma length_substring0 s : forall n,
  n <= String.length s -> String.length (String.substring 0 n s) = n.
Proof.
  induction s as [|a rest IH]; intros [|n] L; simpl in *; try done; try lia.
  rewrite IH; lia.
Qed.

Lemma substring0_length c s :
  s <> "" ->
  String.length (substring0 (lastIndexOf c s) s) < String.length s.
Proof.
  intros Ne. pose proof (lastIndexOf_bounds c s) as B. unfold substring0.
  assert (0 < String.length s) by (destruct s; [done|simpl; lia]).
  rewrite length_substring0; lia.
Qed.

Lemma lastIndexOf_none c s :
  lastIndexOf c s = (-1)%Z -> forall p r, s <> p ++ String c r.
Proof.
  induction s as [|a rest IH]; intros E p r; [by destruct p|].
  simpl in E. pose proof (lastIndexOf_bounds c rest) as B.
  destruct (Z.leb_spec 0 (lastIndexOf c rest)); [lia|].
  destruct (Ascii.eqb_spec a c) as [->|Ne]; [done|].
  destruct p as [|b p]; simpl.
  - intros [= E' _]. done.
  - intros [= _ Eq]. apply (IH ltac:(lia) p r Eq).
Qed.

Lemma lastIndexOf_some c s :
  (0 <= lastIndexOf c s)%Z ->
  exists p r, s = p ++ String c r /\
    lastIndexOf c s = Z.of_nat (String.length p) /\
    lastIndexOf c r = (-1)%Z.
Proof.
  induction s as [|a rest IH]; simpl; [lia|].
  pose proof (lastIndexOf_bounds c rest) as B.
  destruct (Z.leb_spec 0 (lastIndexOf c rest)) as [Pos|Neg].
  - intros _. destruct (IH Pos) as (p & r & -> & L & N).
    exists (String a p), r. simpl. split; [done|]. split; [lia|done].
  - destruct (Ascii.eqb_spec a c) as [->|Ne]; [|lia].
    intros _. exists "", rest. simpl. split; [done|]. split; [done|lia].
Qed.

Lemma substring_prefix p : forall x,
  String.substring 0 (String.length p) (p ++ x) = p.
Proof.
  induction p as [|a p IH]; intros x; simpl.
  - by destruct x.
  - by rewrite IH.
Qed.

(** The tag cut at its last hyphen: empty when there is none. *)
Lemma cut_spec s :
  (lastIndexOf "-" s = (-1)%Z /\ substring0 (lastIndexOf "-" s) s = "") \/
  (exists r, s = substring0 (lastIndexOf "-" s) s ++ String "-" r /\
             lastIndexOf "-" r = (-1)%Z).
Proof.
  pose proof (lastIndexOf_bounds "-" s) as B.
  destruct (Z.leb_spec 0 (lastIndexOf "-" s)) as [Pos|Neg].
  - right. destruct (lastIndexOf_some _ _ Pos) as (p & r & E & L & N).
    exists r. unfold substring0. rewrite L, Nat2Z.id.
    rewrite E at 1 2. by rewrite substring_prefix.
  - left. assert (lastIndexOf "-" s = (-1)%Z) as -> by lia.
    split; [done|]. unfold substring0. simpl. by destruct s.
Qed.

Lemma append_split c q : forall p0 rest r0,
  q ++ String c rest = p0 ++ String c r0 ->
  lastIndexOf c r0 = (-1)%Z ->
  q = p0 \/ exists r', p0 = q ++ String c r'.
Proof.
  induction q as [|a q IH]; intros p0 rest r0 E N.
  - destruct p0 as [|b p0]; [by left|]. right. simpl in E.
    injection E as <- ->. by exists p0.
  - destruct p0 as [|b p0]; simpl in E.
    + injection E as -> <-. by destruct (lastIndexOf_none _ _ N q rest).
    + injection E as <- E. destruct (IH _ _ _ E N) as [->|[r' ->]]; [by left|].
      right. by exists r'.
Qed.

Lemma dashPrefix_nil p : dashPrefix p "" -> p = "".
Proof. intros [->|[rest E]]; [done|]. by destruct p. Qed.

Lemma dashPrefix_trans p q s : dashPrefix p q -> dashPrefix q s -> dashPrefix p s.
Proof.
  intros [->|[r1 ->]]; [done|]. intros [<-|[r2 ->]].
  - right. by exists r1.
  - right. exists (r1 ++ String "-" r2). by rewrite append_String.
Qed.

Lemma dashPrefix_cut s :
  substring0 (lastIndexOf "-" s) s <> "" ->
  dashPrefix (substring0 (lastIndexOf "-" s) s) s.
Proof.
  intros Ne. destruct (cut_spec s) as [[_ E]|[r [E _]]]; [done|].
  right. by exists r.
Qed.

Lemma dashPrefix_step p s :
  dashPrefix p s -> p <> s -> dashPrefix p (substring0 (lastIndexOf "-" s) s).
Proof.
  intros [->|[rest E]] Ne; [done|].
  destruct (cut_spec s) as [[N _]|[r0 [E0 N0]]].
  - by destruct (lastIndexOf_none _ _ N p rest).
  - rewrite E0 in E at 1. symmetry in E.
    destruct (append_split _ _ _ _ _ E N0) as [->|[r' ->]]; [by left|].
    right. by exists r'.
Qed.

End LanguageTags.

Section LinkTextAudit.
Import LinkText.
Import Stdlib.Strings.Ascii.
Context `{Platform}.

(** The loop needs at most one test per character of the tag, and one more. *)
Lemma walk_ends fuel : forall searchTerm lang,
  String.length lang < fuel -> walk fuel searchTerm lang <> OutOfFuel.
Proof.
  induction fuel as [|fuel IH]; intros term lang L; [lia|].
  cbn [walk]. destruct (truthy lang) eqn:T; [|done]. simpl.
  apply truthy_spec in T.
  pose proof (substring0_length "-" lang T) as Shorter.
  destruct (ownProperty lang) as [set|].
  - case_bool_decide; [done|]. apply IH. lia.
  - destruct (inherited lang); [done|]. apply IH. lia.
Qed.

Lemma listed_nil searchTerm : ~ listed searchTerm "".
Proof. intros (p & set & Ne & D & _). by apply dashPrefix_nil in D. Qed.

(** Without inherited names on its way the loop finds the text exactly when
    the set of the tag, or of the tag cut at one of its hyphens, has it. *)
Lemma walk_listed fuel : forall searchTerm lang,
  String.length lang < fuel -> plainLang lang ->
  exists b, walk fuel searchTerm lang = Returns b /\
            (b = true <-> listed searchTerm lang).
Proof.
  induction fuel as [|fuel IH]; intros term lang L Plain; [lia|].
  cbn [walk]. destruct (truthy lang) eqn:T; simpl.
  2:{ exists false. split; [done|]. split; [done|].
      assert (lang = "") as ->.
      { destruct (String.eqb_spec lang ""); [done|].
        unfold truthy in T. by destruct (String.eqb_spec lang ""). }
      intros ?. by destruct (listed_nil term). }
  apply truthy_spec in T.
  pose proof (substring0_length "-" lang T) as Shorter.
  set (cut := substring0 (lastIndexOf "-" lang) lang) in *.
  assert (plainLang cut) as Plain'.
  { intros p Ne D. apply Plain; [done|].
    destruct (decide (cut = "")) as [E|E].
    - rewrite E in D. by apply dashPrefix_nil in D.
    - eapply dashPrefix_trans; [exact D|]. by apply dashPrefix_cut. }
  assert (listed term cut -> listed term lang) as Up.
  { intros (p & set & Ne & D & O & In_). exists p, set. split; [done|].
    split; [|done]. destruct (decide (cut = "")) as [E|E].
    - rewrite E in D. by apply dashPrefix_nil in D.
    - eapply dashPrefix_trans; [exact D|]. by apply dashPrefix_cut. }
  destruct (ownProperty lang) as [set|] eqn:O.
  - case_bool_decide as In_.
    + exists true. split; [done|]. split; [|done]. intros _.
      exists lang, set. split; [done|]. split; [by left|done].
    + destruct (IH term cut ltac:(lia) Plain') as (b & -> & Iff).
      exists b. split; [done|]. rewrite Iff. split; [done|].
      intros (p & set' & Ne & D & O' & In').
      destruct (decide (p = lang)) as [->|Np]; [congruence|].
      exists p, set'. split; [done|]. split; [|done]. by apply dashPrefix_step.
  - rewrite (Plain lang T (or_introl eq_refl)).
    destruct (IH term cut ltac:(lia) Plain') as (b & -> & Iff).
    exists b. split; [done|]. rewrite Iff. split; [done|].
    intros (p & set' & Ne & D & O' & In').
    destruct (decide (p = lang)) as [->|Np]; [congruence|].
    exists p, set'. split; [done|]. split; [|done]. by apply dashPrefix_step.
Qed.

Lemma nonDescriptive_ends url link : nonDescriptive url link <> OutOfFuel.
Proof.
  unfold nonDescriptive. destruct (_ || _); [done|].
  destruct (truthy _); [|done]. apply walk_ends. lia.
Qed.

Lemma filterLinks_ends url links : filterLinks url links <> OutOfFuel.
Proof.
  induction links as [|link rest IH]; simpl; [done|].
  pose proof (nonDescriptive_ends url link).
  destruct (nonDescriptive url link); [|done|done].
  by destruct (filterLinks url rest).
Qed.

(** X12: the audit always comes to an end: the loop over the language tag
    never needs more iterations than the tag has characters, plus one. *)
Theorem audit_ends url anchors : audit url anchors <> OutOfFuel.
Proof.
  unfold audit. pose proof (filterLinks_ends url (List.filter followed anchors)).
  by destruct (filterLinks url _).
Qed.

(** X13: for a tag on whose way there is no inherited name, the loop returns,
    and it returns true exactly when the text is in the set of the tag
    itself or of the tag cut at one of its hyphens ("en" for "en-US"). *)
Theorem walk_finds_listed searchTerm lang :
  plainLang lang ->
  exists b, walk (S (String.length lang)) searchTerm lang = Returns b /\
            (b = true <-> listed searchTerm lang).
Proof. intros Plain. apply walk_listed; [lia|done]. Qed.




Lemma filterLinks_throws url links link e :
  link ∈ links -> nonDescriptive url link = Throws e ->
  exists e', filterLinks url links = Throws e'.
Proof.
  induction links as [|l rest IH]; intros In_ T; [by apply elem_of_nil in In_|].
  cbn [filterLinks]. apply elem_of_cons in In_ as [<-|In_].
  - rewrite T. by eauto.
  - pose proof (nonDescriptive_ends url l).
    destruct (nonDescriptive url l); [|by eauto|done].
    destruct (IH In_ T) as [e' ->]. by eauto.
Qed.

(** X15: one anchor is enough to make the audit throw: a link that passes
    the tests on its href and rel, has a text that is not blank, and a
    language tag that is not one of the seven languages but the name of a
    property that every object inherits. *)
Theorem audit_throws_on_inherited_name url anchors link :
  link ∈ anchors ->
  followed link = true ->
  String.prefix "javascript:" (toLowerCase (href link)) = false ->
  String.prefix "mailto:" (toLowerCase (href link)) = false ->
  UrlUtils_equalWithExcludedFragments (href link) url = false ->
  toLowerCase (trim (text link)) <> "" ->
  textLang link <> "" ->
  ownProperty (textLang link) = None ->
  inherited (textLang link) = true ->
  exists e, audit url anchors = Throws e.
Proof.
  intros In_ F J Ml Eq Term Lang Own Inh.
  assert (exists e, nonDescriptive url link = Throws e) as [e T].
  { unfold nonDescriptive. rewrite J, Ml, Eq. cbn [orb].
    apply truthy_spec in Term. rewrite Term. apply truthy_spec in Lang.
    cbn [walk]. rewrite Lang, Own, Inh. cbn [negb]. by eauto. }
  destruct (filterLinks_throws url (List.filter followed anchors) link e)
    as [e' E]; [|done|].
  - apply list_elem_of_In, filter_In. split; [by apply list_elem_of_In|done].
  - exists e'. unfold audit. by rewrite E.
Qed.

End LinkTextAudit.

(** * The link-text audit at concrete inputs *)

(** The tags that a concrete tag can be cut to, one character at a time. *)
Ltac cut_cases p E :=
  repeat (destruct p as [|? p]; simpl in E;
          [first [discriminate E | vm_compute; reflexivity]
          |first [discriminate E | injection E as ? E; subst]]).

Lemma walk_finds_listed_witness :
  @LinkText.walk LinkText.demoPlatform 6 "click here" "en-US" = LinkText.Returns true.
Proof.
  assert (@LinkText.plainLang LinkText.demoPlatform "en-US") as Plain.
  { intros p Ne [->|[rest E]]; [vm_compute; reflexivity|]. cut_cases p E. }
  destruct (@walk_finds_listed LinkText.demoPlatform "click here" "en-US" Plain)
    as (b & E & Iff).
  change (S (String.length "en-US")) with 6 in E.
  rewrite E. f_equal. apply Iff.
  exists "en", ["click here"; "click this"; "go"; "here"; "information";
                "learn more"; "more"; "more info"; "more information";
                "right here"; "read more"; "see more"; "start"; "this"].
  split; [discriminate|]. split; [right; by exists "US"|].
  split; [reflexivity|]. apply list_elem_of_here.
Defined.


Lemma audit_throws_on_inherited_name_witness :
  exists e,
    @LinkText.audit LinkText.demoPlatform "https://a.example/page"
      [LinkText.link "https://a.example/x" "Our prices" "en";
       LinkText.link "https://a.example/y" "Imprint" "constructor"]
    = LinkText.Throws e.
Proof.
  apply (@audit_throws_on_inherited_name LinkText.demoPlatform
           "https://a.example/page" _
           (LinkText.link "https://a.example/y" "Imprint" "constructor")).
  - apply list_elem_of_further, list_elem_of_here.
  - vm_compute; reflexivity.
  - vm_compute; reflexivity.
  - vm_compute; reflexivity.
  - vm_compute; reflexivity.
  - vm_compute; discriminate.
  - discriminate.
  - vm_compute; reflexivity.
  - vm_compute; reflexivity.
Defined.
